(** * A worker pool (pool.h) and its test harness (framework.cpp)

    The pool is embedded as a transition system.  Every thread (the workers
    spawned by the constructor, and the client threads that call the member
    functions) has a program counter naming the source line it is at; one
    step of [step] runs one thread up to its next access to shared state,
    and a schedule is a list of such steps.  A thread that has to lock
    [task_mutex] can only step while the mutex is free; the atomic [stop]
    flag is read and written without the mutex, as in the source, so the
    two reads of it in the worker loop are separate steps.  A critical
    section that neither waits nor reads [stop] (the pushes of [apply] and
    [map]) is one step.  [wait] may return spuriously.  Task bodies are
    callables that return a value or throw; they do not use the pool
    themselves.  The destructor ends with the destruction of the members:
    the jobs still in the queue are abandoned, and their futures become
    ready with [broken_promise].

    The harness is sequential and embedded as plain functions on the two
    maps of [class Framework].

    Layout: the embedding ([Pool], [Framework]), the vocabulary of the
    invariants and the programs used as examples, then the proofs. *)

From stdpp Require Import base option list strings.

Module Pool.

(** Exceptions of the standard library that the sources throw, and
    [exception] for anything a task body throws. *)
Inductive exn :=
| length_error (what : string)
| runtime_error (what : string)
| future_error (code : string)
| exception (what : string).

(** [namespace Policy] *)
Definition JOIN : bool := true.
Definition TERMINATE : bool := false.

Definition invoked_after_terminated : exn :=
  runtime_error "Thread pool invoked after it was terminated.".

(** [std::future_error] with [std::future_errc::broken_promise]: what
    [future::get()] throws when the task was destroyed before it was
    invoked. *)
Definition broken_promise : exn := future_error "broken_promise".

Section model.

(** [V] is what task bodies return, [A] the element type of the ranges
    handed to [map] and [map_get]. *)
Context {A V : Type}.

(** What invoking a callable does: return a value or throw. *)
Inductive outcome :=
| Value (v : V)
| Exception (e : exn).

(** [std::bind(func, args...)]: a nullary callable. *)
Definition callable : Type := unit -> outcome.

(** [std::packaged_task<R()>] together with its shared state.  The shared
    state is what a [std::future] obtained by [get_future] reads. *)
Record packaged_task := {
  fn : callable;
  shared_state : option outcome
}.

(** The free store holding the packaged tasks created by
    [std::make_shared]; a [shared_ptr] is an index into it.  Both the
    closure pushed on the queue and the future returned to the caller
    refer to the task through this index. *)
Definition make_shared (f : callable) (h : list packaged_task)
  : nat * list packaged_task :=
  (length h, h ++ [{| fn := f; shared_state := None |}]).

(** Invoking the job, [packaged_task::operator()]: runs the stored callable,
    catches whatever it throws and stores value or exception in the shared
    state.  It throws [std::future_error] itself when the shared state is
    already satisfied; nothing in the worker catches that. *)
Definition invoke (j : nat) (h : list packaged_task)
  : option (list packaged_task) :=
  match h !! j with
  | Some {| fn := f; shared_state := None |} =>
      Some (<[j := {| fn := f; shared_state := Some (f tt) |}]> h)
  | _ => None
  end.

(** [~packaged_task()] abandons the shared state: a state that is not
    ready is made ready with [future_error(broken_promise)], a ready one
    is left as it is. *)
Definition abandon (pt : packaged_task) : packaged_task :=
  match shared_state pt with
  | None => {| fn := fn pt; shared_state := Some (Exception broken_promise) |}
  | Some _ => pt
  end.

(** [~queue()]: destroys the queued closures.  The closure of a queued job
    holds the last [shared_ptr] to its packaged task ([apply] and the
    others drop theirs on returning), so the task is destroyed with it. *)
Fixpoint destroy_tasks (q : list nat) (h : list packaged_task)
  : list packaged_task :=
  match q with
  | [] => h
  | job :: q' => destroy_tasks q' (alter abandon job h)
  end.

(** A function object handed to [map]/[map_get] by forwarding reference.
    [call] is what invoking it computes; [call_moved_from] is what the
    object computes once it has been moved from (for a function pointer or
    a closure whose captures are trivially copyable the two agree). *)
Record function_object := {
  call : A -> outcome;
  call_moved_from : A -> outcome
}.

Definition moved_from (f : function_object) : function_object :=
  {| call := call_moved_from f; call_moved_from := call_moved_from f |}.

Inductive value_category := lvalue | rvalue.

(** [std::forward<Func>(func)] handed to [std::bind], which constructs its
    own copy from it: the copy, and what is left in [func]. *)
Definition forward (cat : value_category) (func : function_object)
  : function_object * function_object :=
  match cat with
  | lvalue => (func, func)
  | rvalue => (func, moved_from func)
  end.

(** [std::bind(std::forward<Func>(func), *it)] *)
Definition bind (fd : function_object) (x : A) : callable :=
  fun _ => call fd x.

(** Program counter of a worker thread inside [worker_func]
    (pool.h lines 152-169). *)
Inductive wstate :=
| WLock           (* l.158: constructing the unique_lock *)
| WLoop           (* l.159: holds the lock, evaluates the loop condition *)
| WCallWait       (* l.160: holds the lock, about to call wait *)
| WWait           (* l.160: inside wait, lock released, blocked *)
| WWoken          (* l.160: inside wait, unblocked, reacquiring the lock *)
| WCheck          (* l.162: holds the lock, tests stop *)
| WPop            (* l.163-165: holds the lock, takes the front task *)
| WRun (j : nat)  (* l.166: executing job *)
| WNotify         (* l.167: join_cv.notify_one *)
| WExited         (* returned from the thread function *)
| WCrashed.       (* an exception or undefined behaviour left the thread *)

(** Who called [join] or [terminate]: user code or the destructor. *)
Inductive cont := KReturn | KDestroy.

(** Program counter of a client thread. *)
Inductive cstate :=
| CIdle                         (* not inside a member function *)
| CApplyLock (j : nat) (get : bool)
      (* apply l.209 / apply_get l.226: job made, locking task_mutex *)
| CMapLock (cat : value_category) (func : function_object)
           (xs : list A) (get : bool)
      (* map l.239 / map_get l.261: locking task_mutex *)
| CJoinLock (k : cont)          (* join l.186 *)
| CJoinLoop (k : cont)          (* join l.187: holds the lock *)
| CJoinCallWait (k : cont)      (* join l.188: holds the lock *)
| CJoinWait (k : cont)          (* join l.188: blocked in join_cv.wait *)
| CJoinWoken (k : cont)         (* join l.188: unblocked, reacquiring *)
| CTerminate                    (* destructor l.276 *)
| CTermNotify (k : cont)        (* terminate l.195 *)
| CTermJoin (i : nat) (k : cont)(* terminate l.196-198: workers[i].join() *)
| CAborted.                     (* std::terminate was called *)

(** The pool object (policy, workers, tasks, task_mutex, stop; the wait
    sets of the two condition variables are the threads whose program
    counter is inside [wait]), the free store and the client threads. *)
Record state := {
  policy : bool;
  workers : list wstate;
  tasks : list nat;
  task_mutex : bool;
  stop : bool;
  heap : list packaged_task;
  clients : list cstate
}.

Definition set_workers (ws : list wstate) (s : state) : state :=
  {| policy := policy s; workers := ws; tasks := tasks s;
     task_mutex := task_mutex s; stop := stop s; heap := heap s;
     clients := clients s |}.

Definition set_worker (i : nat) (w : wstate) (s : state) : state :=
  set_workers (<[i := w]> (workers s)) s.

Definition set_tasks (q : list nat) (s : state) : state :=
  {| policy := policy s; workers := workers s; tasks := q;
     task_mutex := task_mutex s; stop := stop s; heap := heap s;
     clients := clients s |}.

Definition set_mutex (b : bool) (s : state) : state :=
  {| policy := policy s; workers := workers s; tasks := tasks s;
     task_mutex := b; stop := stop s; heap := heap s;
     clients := clients s |}.

Definition set_stop (b : bool) (s : state) : state :=
  {| policy := policy s; workers := workers s; tasks := tasks s;
     task_mutex := task_mutex s; stop := b; heap := heap s;
     clients := clients s |}.

Definition set_heap (h : list packaged_task) (s : state) : state :=
  {| policy := policy s; workers := workers s; tasks := tasks s;
     task_mutex := task_mutex s; stop := stop s; heap := h;
     clients := clients s |}.

Definition set_clients (cs : list cstate) (s : state) : state :=
  {| policy := policy s; workers := workers s; tasks := tasks s;
     task_mutex := task_mutex s; stop := stop s; heap := heap s;
     clients := cs |}.

Definition set_client (c : nat) (st : cstate) (s : state) : state :=
  set_clients (<[c := st]> (clients s)) s.

(** ** Condition variables *)

(** Positions of the elements of [l] that satisfy [p]. *)
Fixpoint positions {T} (p : T -> bool) (i : nat) (l : list T) : list nat :=
  match l with
  | [] => []
  | x :: l' => if p x then i :: positions p (S i) l' else positions p (S i) l'
  end.

(** [notify_one]: unblocks one of the waiting threads, if there is one.
    Which one is up to the scheduler ([choice]). *)
Definition notify_one {T} (waiting : T -> bool) (wake : T -> T)
    (choice : nat) (l : list T) : list T :=
  match positions waiting 0 l with
  | [] => l
  | i :: rest =>
      alter wake (nth (choice mod S (length rest)) (i :: rest) i) l
  end.

(** [notify_all]: unblocks every waiting thread. *)
Definition notify_all {T} (wake : T -> T) (l : list T) : list T :=
  wake <$> l.

Definition wwaiting (w : wstate) : bool :=
  match w with WWait => true | _ => false end.
Definition wwake (w : wstate) : wstate :=
  match w with WWait => WWoken | _ => w end.

Definition cwaiting (c : cstate) : bool :=
  match c with CJoinWait _ => true | _ => false end.
Definition cwake (c : cstate) : cstate :=
  match c with CJoinWait k => CJoinWoken k | _ => c end.

(** ** Observable events of a step *)

Inductive retval :=
| apply_ret
| apply_get_ret (fut : nat)
| map_ret
| map_get_ret (futs : list nat)
| join_ret
| terminate_ret
| destroy_ret.

Inductive event :=
| EPush (j : nat)                 (* tasks.push *)
| EPop (w : nat) (j : nat)        (* worker w: tasks.front(), tasks.pop() *)
| ERan (w : nat) (j : nat)        (* worker w: job() returned *)
| EReturn (c : nat) (r : retval)  (* a member function returned to client c *)
| EThrow (c : nat) (e : exn)      (* a member function threw *)
| EAbort (c : nat)                (* the exception left a destructor *)
| ECrash (w : nat).


Definition is_empty {T} (l : list T) : bool :=
  match l with [] => true | _ => false end.

(** ** The worker threads *)

(** One step of worker [i] in [worker_func].  [None]: the thread is blocked
    (on the mutex, inside [wait], or because it has finished).  [front] on
    an empty queue is undefined behaviour and [job] throws when its task
    has been invoked before: both are [WCrashed] (and shown not to
    happen). *)
Definition worker_func (i choice : nat) (s : state)
  : option (list event * state) :=
  w ← workers s !! i;
  match w with
  | WLock =>
      if task_mutex s then None
      else Some ([], set_worker i WLoop (set_mutex true s))
  | WLoop =>
      if negb (stop s) && is_empty (tasks s)
      then Some ([], set_worker i WCallWait s)
      else Some ([], set_worker i WCheck s)
  | WCallWait => Some ([], set_worker i WWait (set_mutex false s))
  | WWait => None
  | WWoken =>
      if task_mutex s then None
      else Some ([], set_worker i WLoop (set_mutex true s))
  | WCheck =>
      if stop s
      then Some ([], set_worker i WExited (set_mutex false s))
      else Some ([], set_worker i WPop s)
  | WPop =>
      match tasks s with
      | job :: q =>
          Some ([EPop i job],
                set_worker i (WRun job) (set_mutex false (set_tasks q s)))
      | [] => Some ([ECrash i], set_worker i WCrashed s)
      end
  | WRun job =>
      match invoke job (heap s) with
      | Some h => Some ([ERan i job], set_worker i WNotify (set_heap h s))
      | None => Some ([ECrash i], set_worker i WCrashed s)
      end
  | WNotify =>
      Some ([], set_worker i WLock
                  (set_clients (notify_one cwaiting cwake choice (clients s)) s))
  | WExited => None
  | WCrashed => None
  end.

(** ** Construction *)

(** [thread_pool(unsigned num_workers)].  [nclients] is the number of
    threads of the program that will use the pool.  [num_workers] is never
    computed with, only compared with 0 and counted up to, so the 32 bits
    of [unsigned] play no role. *)
Definition thread_pool (Policy : bool) (num_workers nclients : nat)
  : exn + state :=
  if Nat.eqb num_workers 0
  then inl (length_error "Number of workers must be positive.")
  else inr {| policy := Policy;
              workers := replicate num_workers WLock;
              tasks := [];
              task_mutex := false;
              stop := false;
              heap := [];
              clients := replicate nclients CIdle |}.

(** [thread_pool()], on a host whose [std::thread::hardware_concurrency()]
    is [hardware_concurrency]. *)
Definition thread_pool_default (Policy : bool)
    (hardware_concurrency nclients : nat) : exn + state :=
  thread_pool Policy hardware_concurrency nclients.

(** [size()] *)
Definition size (s : state) : nat := length (workers s).

(** ** Member functions: the step an idle client takes on calling them *)

Definition throw (c : nat) (e : exn) (s : state)
  : option (list event * state) :=
  Some ([EThrow c e], s).

(** [join()] up to line 185. *)
Definition join (k : cont) (c : nat) (s : state)
  : option (list event * state) :=
  if stop s then
    match k with
    | KReturn => throw c invoked_after_terminated s
    | KDestroy =>
        Some ([EThrow c invoked_after_terminated; EAbort c],
              set_client c CAborted s)
    end
  else Some ([], set_client c (CJoinLock k) s).

(** What a member function called from user code, or from the destructor,
    reports on returning. *)
Definition returned (k : cont) (r : retval) (c : nat) : list event :=
  match k with
  | KReturn => [EReturn c r]
  | KDestroy => [EReturn c r; EReturn c destroy_ret]
  end.

Definition exited (w : wstate) : bool :=
  match w with WExited => true | _ => false end.

(** A client thread that is not inside a member function. *)
Definition outside (st : cstate) : bool :=
  match st with CIdle | CAborted => true | _ => false end.

(** The end of [~thread_pool()], after line 276: the members are destroyed
    in reverse order of declaration, [stop], the condition variables and
    the mutex, [tasks], then [workers].  [~queue] abandons the jobs that
    are still queued, so their futures become ready with
    [broken_promise].  [~vector<thread>] calls [std::terminate] for a
    thread that has not been joined, and destroying the mutex or a
    condition variable that another thread is using is undefined: unless
    every worker has exited and no other thread is inside a member
    function, the destruction is taken as an abort, as on line 275.

    The pool object is gone afterwards.  The state keeps what its members
    held, [tasks] the jobs that were discarded with the queue: any later
    call on it finds the flag set, and no worker is left to look at the
    queue. *)
Definition destroy_members (c : nat) (s : state)
  : option (list event * state) :=
  if forallb exited (workers s)
     && forallb outside (<[c := CIdle]> (clients s))
  then Some (returned KDestroy terminate_ret c,
             set_client c CIdle
               (set_heap (destroy_tasks (tasks s) (heap s)) s))
  else Some ([EReturn c terminate_ret; EAbort c], set_client c CAborted s).

(** [terminate()] returns: to the program, or to the destructor, which
    ends with it. *)
Definition terminate_return (k : cont) (c : nat) (s : state)
  : option (list event * state) :=
  match k with
  | KReturn => Some (returned KReturn terminate_ret c, set_client c CIdle s)
  | KDestroy => destroy_members c s
  end.

(** [terminate()] line 194: [stop.exchange(true)]. *)
Definition terminate (k : cont) (c : nat) (s : state)
  : option (list event * state) :=
  if stop s then terminate_return k c s
  else Some ([], set_client c (CTermNotify k) (set_stop true s)).

(** [apply(func, args...)] up to line 208 ([get = false]) and
    [apply_get(func, args...)] up to line 224 ([get = true]);
    [f] is [std::bind(func, args...)]. *)
Definition apply_ (get : bool) (f : callable) (c : nat) (s : state)
  : option (list event * state) :=
  if stop s then throw c invoked_after_terminated s
  else
    let '(job, h) := make_shared f (heap s) in
    Some ([], set_client c (CApplyLock job get) (set_heap h s)).

Definition apply := apply_ false.
Definition apply_get := apply_ true.

(** [map(func, begin, end)] up to line 238 ([get = false]) and
    [map_get(func, begin, end)] up to line 260 ([get = true]). *)
Definition map_ (get : bool) (cat : value_category) (func : function_object)
    (xs : list A) (c : nat) (s : state) : option (list event * state) :=
  if stop s then throw c invoked_after_terminated s
  else Some ([], set_client c (CMapLock cat func xs get) s).

Definition map := map_ false.
Definition map_get := map_ true.

(** The loop of [map] (lines 240-244) and [map_get] (lines 262-267) over
    the range [xs], run under the lock: the futures collected so far are
    extended in order, every job is pushed at the back of the queue. *)
Fixpoint map_loop (cat : value_category) (func : function_object)
    (xs : list A) (q : list nat) (h : list packaged_task)
  : list nat * list nat * list packaged_task :=
  match xs with
  | [] => ([], q, h)
  | x :: xs' =>
      let '(fd, func') := forward cat func in
      let '(job, h1) := make_shared (bind fd x) h in
      let '(futures, q', h') := map_loop cat func' xs' (q ++ [job]) h1 in
      (job :: futures, q', h')
  end.

(** [~thread_pool()] line 275; line 276 is [CTerminate], and the
    destruction of the members follows the return of [terminate]
    ([destroy_members]). *)
Definition destroy (c : nat) (s : state) : option (list event * state) :=
  if policy s then join KDestroy c s else terminate KDestroy c s.

(** A call of a member function. *)
Inductive request :=
| Apply (f : callable)
| ApplyGet (f : callable)
| Map (cat : value_category) (func : function_object) (xs : list A)
| MapGet (cat : value_category) (func : function_object) (xs : list A)
| Join
| Terminate
| Destroy.

Definition call_member (c : nat) (r : request) (s : state)
  : option (list event * state) :=
  st ← clients s !! c;
  match st with
  | CIdle =>
      match r with
      | Apply f => apply f c s
      | ApplyGet f => apply_get f c s
      | Map cat func xs => map cat func xs c s
      | MapGet cat func xs => map_get cat func xs c s
      | Join => join KReturn c s
      | Terminate => terminate KReturn c s
      | Destroy => destroy c s
      end
  | _ => None
  end.

(** The rest of a member function, for a client inside one. *)
Definition client_step (c choice : nat) (s : state)
  : option (list event * state) :=
  st ← clients s !! c;
  match st with
  | CIdle => None
  | CApplyLock job get =>
      (* apply l.209-212, apply_get l.226-231 *)
      if task_mutex s then None
      else Some (EPush job ::
                   [EReturn c (if get then apply_get_ret job else apply_ret)],
                 set_client c CIdle
                   (set_workers (notify_one wwaiting wwake choice (workers s))
                      (set_tasks (tasks s ++ [job]) s)))
  | CMapLock cat func xs get =>
      (* map l.239-247, map_get l.261-271 *)
      if task_mutex s then None
      else
        let '(futures, q, h) := map_loop cat func xs (tasks s) (heap s) in
        Some ((EPush <$> futures) ++
                [EReturn c (if get then map_get_ret futures else map_ret)],
              set_client c CIdle
                (set_workers (notify_all wwake (workers s))
                   (set_heap h (set_tasks q s))))
  | CJoinLock k =>
      if task_mutex s then None
      else Some ([], set_client c (CJoinLoop k) (set_mutex true s))
  | CJoinLoop k =>
      if negb (is_empty (tasks s))
      then Some ([], set_client c (CJoinCallWait k) s)
      else Some ([EReturn c join_ret],
                 set_client c (match k with
                               | KReturn => CIdle
                               | KDestroy => CTerminate
                               end)
                   (set_mutex false s))
  | CJoinCallWait k => Some ([], set_client c (CJoinWait k) (set_mutex false s))
  | CJoinWait k => None
  | CJoinWoken k =>
      if task_mutex s then None
      else Some ([], set_client c (CJoinLoop k) (set_mutex true s))
  | CTerminate => terminate KDestroy c s
  | CTermNotify k =>
      Some ([], set_client c (CTermJoin 0 k)
                  (set_workers (notify_all wwake (workers s)) s))
  | CTermJoin i k =>
      match workers s !! i with
      | None => terminate_return k c s
      | Some WExited => Some ([], set_client c (CTermJoin (S i) k) s)
      | Some _ => None
      end
  | CAborted => None
  end.

(** [future::get()]: the value, or the exception rethrown (that of the
    task body, or [broken_promise] for an abandoned task); [None] while
    the shared state is not ready (the caller blocks). *)
Definition future_get (fut : nat) (s : state) : option outcome :=
  pt ← heap s !! fut; shared_state pt.

(** ** The scheduler *)

Inductive action :=
| Call (c : nat) (r : request)     (* idle client c calls a member function *)
| Client (c : nat) (choice : nat)  (* client c goes on *)
| Worker (i : nat) (choice : nat)  (* worker i goes on *)
| SpuriousWorker (i : nat)         (* wait returns without a notification *)
| SpuriousClient (c : nat).

Definition step (a : action) (s : state) : option (list event * state) :=
  match a with
  | Call c r => call_member c r s
  | Client c choice => client_step c choice s
  | Worker i choice => worker_func i choice s
  | SpuriousWorker i =>
      match workers s !! i with
      | Some WWait => Some ([], set_worker i WWoken s)
      | _ => None
      end
  | SpuriousClient c =>
      match clients s !! c with
      | Some (CJoinWait k) => Some ([], set_client c (CJoinWoken k) s)
      | _ => None
      end
  end.

Fixpoint run (acts : list action) (s : state) : option (list event * state) :=
  match acts with
  | [] => Some ([], s)
  | a :: acts' =>
      '(ev, s1) ← step a s;
      '(tr, s2) ← run acts' s1;
      Some (ev ++ tr, s2)
  end.

(** The states a program can bring a freshly constructed pool into. *)
Definition reachable (s : state) : Prop :=
  exists Policy n m s0 acts tr,
    thread_pool Policy n m = inr s0 /\ run acts s0 = Some (tr, s).

(** The jobs pushed, popped and run to completion in a trace, in order. *)
Definition pushed (tr : list event) : list nat :=
  tr ≫= (fun e => match e with EPush j => [j] | _ => [] end).
Definition popped (tr : list event) : list nat :=
  tr ≫= (fun e => match e with EPop _ j => [j] | _ => [] end).
Definition completed (tr : list event) : list nat :=
  tr ≫= (fun e => match e with ERan _ j => [j] | _ => [] end).

End model.

Arguments outcome : clear implicits.
Arguments callable : clear implicits.
Arguments packaged_task : clear implicits.
Arguments function_object : clear implicits.
Arguments cstate : clear implicits.
Arguments state : clear implicits.
Arguments request : clear implicits.
Arguments action : clear implicits.

End Pool.

(** ** Vocabulary of the invariants *)
Module PoolInv.
Import Pool.

Fixpoint count {T} (p : T -> bool) (l : list T) : nat :=
  match l with
  | [] => 0
  | x :: l' => (if p x then 1 else 0) + count p l'
  end.

(** Program points at which a thread owns [task_mutex]. *)
Definition wholds (w : wstate) : bool :=
  match w with
  | WLoop | WCallWait | WCheck | WPop => true
  | _ => false
  end.

Definition cholds {A V} (c : cstate A V) : bool :=
  match c with
  | CJoinLoop _ | CJoinCallWait _ => true
  | _ => false
  end.

Definition holders {A V} (s : state A V) : nat :=
  count wholds (workers s) + count cholds (clients s).

(** Where a job can be before it has run: held by a client that has not
    pushed it yet, in the queue, or in the hands of a worker. *)
Definition wruns (j : nat) (w : wstate) : bool :=
  match w with WRun j' => Nat.eqb j j' | _ => false end.

Definition cpending {A V} (j : nat) (c : cstate A V) : bool :=
  match c with CApplyLock j' _ => Nat.eqb j j' | _ => false end.

Definition occurrences {A V} (j : nat) (s : state A V) : nat :=
  count (Nat.eqb j) (tasks s) + count (wruns j) (workers s)
  + count (cpending j) (clients s).

(** A worker thread that has not returned. *)
Definition running (w : wstate) : bool := negb (exited w).

(** One for a job that exists and has not been invoked. *)
Definition invocable {V} (j : nat) (h : list (packaged_task V)) : nat :=
  match h !! j with
  | Some {| shared_state := None |} => 1
  | _ => 0
  end.

(** The callables bound by the loop of [map] and [map_get], in order. *)
Fixpoint bound {A V} (cat : value_category) (func : function_object A V)
    (xs : list A) : list (callable V) :=
  match xs with
  | [] => []
  | x :: xs' =>
      let '(fd, func') := forward cat func in
      bind fd x :: bound cat func' xs'
  end.

Definition fresh_task {V} (f : callable V) : packaged_task V :=
  {| fn := f; shared_state := None |}.

Section invariants.
Context {A V : Type}.
Implicit Types (s : state A V) (tr : list event).

(** [task_mutex] is owned by at most one thread, and is locked exactly when
    some thread is at a program point inside a critical section. *)
Definition mutex_inv s : Prop :=
  holders s = if task_mutex s then 1 else 0.

(** A worker that has left the wait loop without seeing [stop] finds a
    task at the front of the queue. *)
Definition front_inv s : Prop :=
  forall i w, workers s !! i = Some w ->
    match w with
    | WPop => tasks s <> []
    | WCheck => stop s = true \/ tasks s <> []
    | _ => True
    end.

(** Every job is in at most one place, and a job that is somewhere has not
    been invoked.  Once every worker has returned nobody takes a job from
    the queue any more, and the queued jobs need not be invocable: the
    destructor abandons them. *)
Definition owner_inv s : Prop :=
  forall j,
    occurrences j s <= invocable j (heap s) \/
    (count running (workers s) = 0 /\
     count (cpending j) (clients s) <= invocable j (heap s)).

(** [terminate] has set the flag once it is past line 194. *)
Definition term_inv s : Prop :=
  forall c st, clients s !! c = Some st ->
    match st with
    | CTermNotify _ | CTermJoin _ _ => stop s = true
    | _ => True
    end.

Definition no_crash s : Prop :=
  forall i, workers s !! i <> Some WCrashed.

Definition inv s : Prop :=
  mutex_inv s /\ front_inv s /\ owner_inv s /\ term_inv s /\ no_crash s.


(** A pushed job is never pushed again. *)
Definition pushed_inv tr s : Prop :=
  NoDup (pushed tr) /\
  forall j, j ∈ pushed tr ->
    j < length (heap s) /\ count (cpending j) (clients s) = 0.


(** A dequeued job is being executed by a worker or has run. *)
Definition in_flight tr s : Prop :=
  forall j, j ∈ popped tr ->
    is_Some (future_get j s) \/ exists i, workers s !! i = Some (WRun j).


(** Once [terminate] has returned the flag is set. *)
Definition terminated_inv tr s : Prop :=
  forall c, EReturn c terminate_ret ∈ tr -> stop s = true.


(** The three trace invariants together. *)
Definition trace_inv tr s : Prop :=
  inv s /\ pushed_inv tr s /\ in_flight tr s /\ terminated_inv tr s.

(** How a packaged task changes over time: the callable stays, the shared
    state is written at most once, with what the callable returns or, for
    a task abandoned by the destructor, with [broken_promise]. *)
Definition evolves (pt pt' : packaged_task V) : Prop :=
  fn pt' = fn pt /\
  (shared_state pt' = shared_state pt \/
   (shared_state pt = None /\ shared_state pt' = Some (fn pt tt)) \/
   (shared_state pt = None /\
    shared_state pt' = Some (Exception broken_promise))).

(** The two ways in which a future gets ready, told apart by the trace [tr]
    of the run: its job ran, and it holds the outcome [v] of the callable;
    or the job never ran and a destructor came to its end, and it holds
    [broken_promise]. *)
Definition resolved (fut : nat) (v : outcome V) tr (o : outcome V) : Prop :=
  (fut ∈ completed tr /\ o = v) \/
  ((fut ∉ completed tr) /\ o = Exception broken_promise /\
   exists c, EReturn c destroy_ret ∈ tr).

(** [x] occurs in [l] at an earlier position than [y]. *)
Definition before (x y : nat) (l : list nat) : Prop :=
  exists l1 l2 l3, l = l1 ++ x :: l2 ++ y :: l3.

(** The reading of [join] under which it waits for the tasks themselves:
    when [join] returns, every job pushed so far has run to completion. *)
Definition join_waits_for_completion : Prop :=
  forall Policy n m (s0 : state A V) acts tr s a ev s' c,
    thread_pool Policy n m = inr s0 -> run acts s0 = Some (tr, s) ->
    step a s = Some (ev, s') -> EReturn c join_ret ∈ ev ->
    forall j, j ∈ pushed (tr ++ ev) -> is_Some (future_get j s').

End invariants.

End PoolInv.

(** ** Small programs using a pool, and how the scheduler runs them *)
Module PoolPrograms.
Import Pool.

Definition trace {A V} (acts : list (action A V)) (s : state A V)
  : list event :=
  match run acts s with Some (tr, _) => tr | None => [] end.

Definition final {A V} (acts : list (action A V)) (s : state A V)
  : state A V :=
  match run acts s with Some (_, s') => s' | None => s end.

(** A pool with one worker, used by one thread. *)
Definition pool1 (Policy : bool) : state nat nat :=
  {| policy := Policy; workers := [WLock]; tasks := []; task_mutex := false;
     stop := false; heap := []; clients := [CIdle] |}.

(** Worker 0 from the top of its loop to the call of [job]. *)
Definition dequeue : list (action nat nat) :=
  [Worker 0 0; Worker 0 0; Worker 0 0; Worker 0 0].

Definition seven : callable nat := fun _ => Value 7.

(** [pool.apply(seven); pool.join();] with the worker still inside the
    task when [join] evaluates its loop condition. *)
Definition submit_then_join : list (action nat nat) :=
  [Call 0 (Apply seven); Client 0 0] ++ dequeue ++ [Call 0 Join; Client 0 0].

(** [pool.apply(boom);] where [boom] throws, with the worker about to
    invoke it. *)
Definition boom : callable nat := fun _ => Exception (exception "boom").

Definition submit_boom : list (action nat nat) :=
  [Call 0 (Apply boom); Client 0 0] ++ dequeue.

(** [pool.terminate();] run to completion. *)
Definition terminated : list (action nat nat) :=
  [Call 0 Terminate; Client 0 0;
   Worker 0 0; Worker 0 0; Worker 0 0;
   Client 0 0; Client 0 0].

(** [test_apply_get]: [pool.apply_get(add, 7, 11)] on a JOIN pool with one
    worker. *)
Definition add (p : nat * nat) : nat := fst p + snd p.

(** Two workers, two tasks: dequeued in the order of submission, finished
    in the other order. *)
Definition pool2 : state nat nat :=
  {| policy := TERMINATE; workers := [WLock; WLock]; tasks := [];
     task_mutex := false; stop := false; heap := []; clients := [CIdle] |}.

Definition two_tasks : list (action nat nat) :=
  [Call 0 (Apply seven); Client 0 0; Call 0 (Apply boom); Client 0 0;
   Worker 0 0; Worker 0 0; Worker 0 0; Worker 0 0;
   Worker 1 0; Worker 1 0; Worker 1 0; Worker 1 0;
   Worker 1 0; Worker 0 0].

Definition size_plus : function_object nat nat :=
  {| call := fun x => Value (3 + x);
     call_moved_from := fun x => Value (0 + x) |}.

Definition map_get_temporary : list (action nat nat) :=
  [Call 0 (MapGet rvalue size_plus [10; 20]); Client 0 0]
  ++ dequeue ++ [Worker 0 0; Worker 0 0]
  ++ dequeue ++ [Worker 0 0].

End PoolPrograms.

(** * The test harness (framework.h, framework.cpp) *)
Module Framework.

Inductive exn :=
| out_of_range (what : string)
| bad_optional_access.

(** What calling a registered test does: return, throw something derived
    from [std::exception] (a [test_error] of an assertion among them), or
    throw anything else. *)
Inductive test_outcome :=
| Returns
| ThrowsException (what : string)
| ThrowsOther.

(** [std::function<void()>] *)
Definition test : Type := unit -> test_outcome.

(** [std::map<std::string, T>]: the entries in the order of iteration,
    which is the order of the keys. *)
Section map.
Context {T : Type}.

Fixpoint find (name : string) (m : list (string * T)) : option T :=
  match m with
  | [] => None
  | (k, v) :: m' => if String.eqb name k then Some v else find name m'
  end.

(** Where [std::map] puts a new key. *)
Fixpoint insert_sorted (name : string) (v : T) (m : list (string * T))
  : list (string * T) :=
  match m with
  | [] => [(name, v)]
  | (k, w) :: m' =>
      match String.compare name k with
      | Gt => (k, w) :: insert_sorted name v m'
      | _ => (name, v) :: (k, w) :: m'
      end
  end.

(** [map::emplace]: inserts unless the key is there already. *)
Definition map_emplace (name : string) (v : T) (m : list (string * T))
  : list (string * T) :=
  match find name m with
  | Some _ => m
  | None => insert_sorted name v m
  end.

(** [map::erase(key)] *)
Fixpoint map_erase (name : string) (m : list (string * T))
  : list (string * T) :=
  match m with
  | [] => []
  | (k, v) :: m' =>
      if String.eqb name k then map_erase name m'
      else (k, v) :: map_erase name m'
  end.

End map.

(** [class Framework] *)
Record Framework := {
  tests : list (string * test);
  results : list (string * option string)
}.

Definition total_size (fw : Framework) : nat := length (tests fw).

Definition executed_size (fw : Framework) : nat := length (results fw).

Definition contains (name : string) (fw : Framework) : bool :=
  match find name (tests fw) with Some _ => true | None => false end.

Definition executed (name : string) (fw : Framework) : bool :=
  match find name (results fw) with Some _ => true | None => false end.

Definition emplace (name : string) (func : test) (fw : Framework)
  : Framework :=
  {| tests := map_emplace name func (tests fw);
     results := map_erase name (results fw) |}.

Definition record (name : string) (r : option string) (fw : Framework)
  : Framework :=
  {| tests := tests fw; results := map_emplace name r (results fw) |}.

(** [Framework::run].  [tests.at(name)] cannot fail after the check of
    [contains]. *)
Definition run (name : string) (fw : Framework) : exn + Framework :=
  if negb (contains name fw)
  then inl (out_of_range "Provided name is not registered.")
  else if executed name fw then inr fw
  else
    match find name (tests fw) with
    | None => inl (out_of_range "map::at")
    | Some test =>
        match test tt with
        | ThrowsException what => inr (record name (Some what) fw)
        | ThrowsOther => inr (record name (Some "Caught unknown exception.") fw)
        | Returns => inr (record name None fw)
        end
    end.

(** [Framework::run_all]: [run] on every registered name, in the order of
    [tests]. *)
Fixpoint run_names (names : list string) (fw : Framework) : exn + Framework :=
  match names with
  | [] => inr fw
  | name :: names' =>
      match run name fw with
      | inl e => inl e
      | inr fw' => run_names names' fw'
      end
  end.

Definition run_all (fw : Framework) : exn + Framework :=
  run_names (fst <$> tests fw) fw.

(** [Framework::passed(name)], [Framework::failed(name)] *)
Definition passed (name : string) (fw : Framework) : exn + bool :=
  match find name (results fw) with
  | None => inl (out_of_range "map::at")
  | Some out => inr (negb (bool_decide (is_Some out)))
  end.

Definition failed (name : string) (fw : Framework) : exn + bool :=
  match find name (results fw) with
  | None => inl (out_of_range "map::at")
  | Some out => inr (bool_decide (is_Some out))
  end.

(** [Framework::error_msg] *)
Definition error_msg (name : string) (fw : Framework) : exn + string :=
  match find name (results fw) with
  | None => inl (out_of_range "map::at")
  | Some None => inl bad_optional_access
  | Some (Some msg) => inr msg
  end.

(** What [run] records for a test. *)
Definition verdict (o : test_outcome) : option string :=
  match o with
  | Returns => None
  | ThrowsException what => Some what
  | ThrowsOther => Some "Caught unknown exception."
  end.

End Framework.

Module HarnessPrograms.
Import Framework.

(** The harness of test.cpp after a first run, then [emplace("map", ...)]
    again. *)
Definition passing : test := fun _ => Returns.
Definition failing : test := fun _ => ThrowsException "Default assert_leq message.".

Definition registered : Framework :=
  emplace "map_get" passing
    (emplace "map" failing
       (emplace "apply_get" passing
          (emplace "apply" passing {| tests := []; results := [] |}))).

Definition after_run : Framework :=
  match run_all registered with inr fw => fw | inl _ => registered end.

End HarnessPrograms.

(** ** Vocabulary of further invariants of the pool *)
Module PoolMore.
Import Pool PoolInv.

Section more.
Context {A V : Type}.
Implicit Types (s : state A V) (tr : list event).

(** A ready shared state was written in one of the two ways, and a job
    whose shared state is not ready has not run. *)
Definition results_inv tr s : Prop :=
  forall j pt, heap s !! j = Some pt ->
    match shared_state pt with
    | Some o => resolved j (fn pt tt) tr o
    | None => j ∉ completed tr
    end.

(** Jobs run after they were dequeued, and only once. *)
Definition exec_inv tr s : Prop :=
  NoDup (completed tr) /\
  (forall j, j ∈ completed tr -> j ∈ popped tr /\ is_Some (future_get j s)) /\
  (forall i j, workers s !! i = Some (WRun j) -> j ∈ popped tr).

(** A job in the queue has not run: its shared state is not ready, or
    holds [broken_promise] once the destructor has abandoned it. *)
Definition queued_inv s : Prop :=
  forall j, j ∈ tasks s ->
    exists pt, heap s !! j = Some pt /\
      (shared_state pt = None \/
       shared_state pt = Some (Exception broken_promise)).

(** The flag is set and no worker is past the test of it on line 162. *)
Definition halted s : Prop :=
  stop s = true /\ forall i, workers s !! i <> Some WPop.

(** [terminate] joins the workers in the order of the vector. *)
Definition join_inv s : Prop :=
  forall c i k, clients s !! c = Some (CTermJoin i k) ->
    forall i', i' < i -> workers s !! i' = Some WExited.

Definition all_exited s : Prop :=
  forall i w, workers s !! i = Some w -> w = WExited.

(** Client states out of which, on a stopped pool, nothing is pushed and
    nobody is notified. *)
Definition cquiet (st : cstate A V) : bool :=
  match st with
  | CIdle | CAborted | CTermJoin _ _ => true
  | _ => false
  end.

(** Worker [i] sleeps in [wait] after the flag was set and the
    notification of [terminate] went by; client [c] is joining a worker
    not after [i]. *)
Definition hung (i c : nat) s : Prop :=
  stop s = true /\
  workers s !! i = Some WWait /\
  (forall c' st, clients s !! c' = Some st -> cquiet st = true) /\
  exists k, k <= i /\ clients s !! c = Some (CTermJoin k KReturn).

(** Schedules in which the [wait] of worker [i] does not return
    spuriously. *)
Definition no_spurious (i : nat) (acts : list (action A V)) : Prop :=
  Forall (fun a => match a with
                   | SpuriousWorker i' => i' <> i
                   | _ => True
                   end) acts.


(** A client inside [join], past the test of the flag. *)
Definition joining (st : cstate A V) : bool :=
  match st with
  | CJoinLock _ | CJoinLoop _ | CJoinCallWait _ | CJoinWait _
  | CJoinWoken _ => true
  | _ => false
  end.










End more.
End PoolMore.

(** ** Further programs *)
Module PoolScenarios.
Import Pool PoolPrograms.

(** Worker 0 inside its critical section, about to call [wait]. *)
Definition about_to_wait : list (action nat nat) := [Worker 0 0; Worker 0 0].

(** [pool.apply_get(add, 7, 11)] run until the future is ready. *)
Definition apply_get_done : list (action nat nat) :=
  [Call 0 (ApplyGet (fun _ => Value (add (7, 11)))); Client 0 0]
  ++ dequeue ++ [Worker 0 0].

(** [pool.apply(seven); pool.terminate();] with the flag set before the
    worker has looked at the queue... *)
Definition submit_then_stop : list (action nat nat) :=
  [Call 0 (Apply seven); Client 0 0; Call 0 Terminate].

(** ... and the rest of that call of [terminate]. *)
Definition finish_terminate : list (action nat nat) :=
  [Client 0 0; Worker 0 0; Worker 0 0; Worker 0 0; Client 0 0; Client 0 0].

(** ... followed by the destructor of the pool. *)
Definition finish_and_destroy : list (action nat nat) :=
  finish_terminate ++ [Call 0 Destroy].

(** [pool.terminate()] up to the last iteration of its loop. *)
Definition terminating : list (action nat nat) :=
  [Call 0 Terminate; Client 0 0;
   Worker 0 0; Worker 0 0; Worker 0 0;
   Client 0 0].



(** A pool with one worker shared by two threads: thread 0 submits a job
    and blocks in [join] before the worker has looked at the queue, then
    thread 1 calls [terminate]... *)
Definition shared_pool : state nat nat :=
  {| policy := TERMINATE; workers := [WLock]; tasks := [];
     task_mutex := false; stop := false; heap := [];
     clients := [CIdle; CIdle] |}.

Definition join_then_stop : list (action nat nat) :=
  [Call 0 (Apply seven); Client 0 0;
   Call 0 Join; Client 0 0; Client 0 0; Client 0 0;
   Call 1 Terminate].

(** ... which runs to completion; thread 0 is woken spuriously and
    evaluates the condition of its loop again. *)
Definition stop_and_wake : list (action nat nat) :=
  [Client 1 0; Worker 0 0; Worker 0 0; Worker 0 0; Client 1 0; Client 1 0;
   SpuriousClient 0; Client 0 0; Client 0 0; Client 0 0].

(** [{ thread_pool<Policy::TERMINATE> pool(1);
      fut = pool.apply_get(add, 7, 11); }] with the worker slower than the
    destructor: the job is still queued when the pool is destroyed. *)
Definition apply_get_call : list (action nat nat) :=
  [Call 0 (ApplyGet (fun _ => Value (add (7, 11))))].

Definition destroyed_early : list (action nat nat) :=
  [Client 0 0; Call 0 Destroy; Client 0 0;
   Worker 0 0; Worker 0 0; Worker 0 0;
   Client 0 0; Client 0 0].


End PoolScenarios.

(** ** The rest of [class Framework]: counting and printing *)
Module FrameworkMore.
Import Framework.

(** [std::count_if] *)
Fixpoint count_if {T} (p : T -> bool) (l : list T) : nat :=
  match l with
  | [] => 0
  | x :: l' => (if p x then 1 else 0) + count_if p l'
  end.

Definition has_value {T} (o : option T) : bool :=
  match o with Some _ => true | None => false end.

(** [Framework::passed()] and [Framework::failed()], the counts. *)
Definition passed_count (fw : Framework) : nat :=
  count_if (fun res => negb (has_value (snd res))) (results fw).

Definition failed_count (fw : Framework) : nat :=
  count_if (fun res => has_value (snd res)) (results fw).

Definition nl : string := String (Ascii.ascii_of_nat 10) EmptyString.
Definition tab : string := String (Ascii.ascii_of_nat 9) EmptyString.

(** [Framework::result(name, os)]: the stream after the call and the
    exception that ended it, if any.  [os] is what was written before. *)
Definition result (name : string) (fw : Framework) (os : string)
  : string * option exn :=
  if negb (contains name fw)
  then (os, Some (out_of_range "Provided name is not registered."))
  else
    let os := os +:+ "Test " +:+ name in
    if negb (executed name fw)
    then (os +:+ " has not been executed." +:+ nl, None)
    else
      match passed name fw with
      | inl e => (os, Some e)
      | inr true => (os +:+ " passed." +:+ nl, None)
      | inr false =>
          let os := os +:+ " failed." +:+ nl +:+ tab +:+ "Error: " in
          match error_msg name fw with
          | inl e => (os, Some e)
          | inr msg => (os +:+ msg +:+ nl, None)
          end
      end.

(** [operator<<(os, fr)]: [result] for every registered test, in the order
    of [tests]. *)
Fixpoint print_names (names : list string) (fw : Framework) (os : string)
  : string * option exn :=
  match names with
  | [] => (os, None)
  | name :: names' =>
      match result name fw os with
      | (os', None) => print_names names' fw os'
      | thrown => thrown
      end
  end.

Definition print (fw : Framework) (os : string) : string * option exn :=
  print_names (fst <$> tests fw) fw os.

(** What [result] writes for a registered test. *)
Definition line (fw : Framework) (name : string) : string :=
  "Test " +:+ name +:+
  match find name (results fw) with
  | None => " has not been executed."
  | Some None => " passed."
  | Some (Some msg) => " failed." +:+ nl +:+ tab +:+ "Error: " +:+ msg
  end +:+ nl.

Fixpoint concat_lines (ls : list string) : string :=
  match ls with
  | [] => ""
  | l :: ls' => l +:+ concat_lines ls'
  end.

(** ** The assertions of framework.h *)

(** [std::string(const char* )] applied to [msg.c_str()]: the characters
    before the first NUL. *)
Fixpoint c_str (msg : string) : string :=
  match msg with
  | EmptyString => EmptyString
  | String a msg' =>
      if Ascii.eqb a Ascii.zero then EmptyString else String a (c_str msg')
  end.

Fixpoint no_nul (msg : string) : bool :=
  match msg with
  | EmptyString => true
  | String a msg' => negb (Ascii.eqb a Ascii.zero) && no_nul msg'
  end.

(** [throw test_error(msg)] as the handlers of [run] see it: an exception
    derived from [std::exception], whose [what()] is [msg.c_str()]. *)
Definition throw_test_error (msg : string) : test_outcome :=
  ThrowsException (c_str msg).

Definition assert_true (p : bool) (msg : string) : test_outcome :=
  if negb p then throw_test_error msg else Returns.

Definition assert_false (p : bool) (msg : string) : test_outcome :=
  if p then throw_test_error msg else Returns.

(** The comparison operators of the two argument types. *)
Class Operators (Obj1 Obj2 : Type) := {
  op_eq : Obj1 -> Obj2 -> bool;
  op_neq : Obj1 -> Obj2 -> bool;
  op_less : Obj1 -> Obj2 -> bool;
  op_leq : Obj1 -> Obj2 -> bool;
  op_greater : Obj1 -> Obj2 -> bool;
  op_geq : Obj1 -> Obj2 -> bool
}.

Section assertions.
Context {Obj1 Obj2 : Type} `{Operators Obj1 Obj2}.

Definition assert_eq (X : Obj1) (Y : Obj2) (msg : string) : test_outcome :=
  if negb (op_eq X Y) then throw_test_error msg else Returns.

Definition assert_neq (X : Obj1) (Y : Obj2) (msg : string) : test_outcome :=
  if negb (op_neq X Y) then throw_test_error msg else Returns.

Definition assert_less (X : Obj1) (Y : Obj2) (msg : string) : test_outcome :=
  if negb (op_less X Y) then throw_test_error msg else Returns.

Definition assert_leq (X : Obj1) (Y : Obj2) (msg : string) : test_outcome :=
  if negb (op_leq X Y) then throw_test_error msg else Returns.

Definition assert_greater (X : Obj1) (Y : Obj2) (msg : string)
  : test_outcome :=
  if negb (op_greater X Y) then throw_test_error msg else Returns.

Definition assert_geq (X : Obj1) (Y : Obj2) (msg : string) : test_outcome :=
  if negb (op_geq X Y) then throw_test_error msg else Returns.

End assertions.

(** The operators of the integer types, on values: [unsigned] against the
    64-bit signed count of a [std::chrono] duration compares the values
    (the usual arithmetic conversions take the 32-bit [unsigned] to the
    wider signed type). *)
#[export] Instance int_operators : Operators Z Z := {
  op_eq := Z.eqb;
  op_neq := fun x y => negb (Z.eqb x y);
  op_less := Z.ltb;
  op_leq := Z.leb;
  op_greater := Z.gtb;
  op_geq := Z.geb
}.

(** Arithmetic of [unsigned]: modulo [2^32]. *)
Definition unsigned (z : Z) : Z := (z mod 2 ^ 32)%Z.

(** The statements of a test body one after the other: the first one that
    throws ends the test. *)
Fixpoint sequence (stmts : list test) : test :=
  fun _ =>
    match stmts with
    | [] => Returns
    | st :: stmts' =>
        match st tt with
        | Returns => sequence stmts' tt
        | thrown => thrown
        end
    end.

(** The checks at the end of [test_apply] in test.cpp (lines 64-67), for
    a measured [elapsed]. *)
Definition epsilon : Z := 4.

Definition elapsed_checks (elapsed : Z) : test :=
  sequence
    [fun _ => assert_leq (unsigned (30 - epsilon)) elapsed
                "Default assert_leq message.";
     fun _ => assert_leq elapsed (unsigned (30 + epsilon))
                "Default assert_leq message."].

(** ** Frameworks that a program can build *)

Definition empty_framework : Framework := {| tests := []; results := [] |}.

Inductive op :=
| Emplace (name : string) (func : test)
| Run (name : string)
| RunAll.

(** A call whose exception is caught leaves the framework as it was. *)
Definition perform (fw : Framework) (o : op) : Framework :=
  match o with
  | Emplace name func => emplace name func fw
  | Run name => match run name fw with inr fw' => fw' | inl _ => fw end
  | RunAll => match run_all fw with inr fw' => fw' | inl _ => fw end
  end.

Definition built (fw : Framework) : Prop :=
  exists ops, fw = foldl perform empty_framework ops.

(** The order of [std::string]. *)
Definition name_lt (s1 s2 : string) : Prop := String.compare s1 s2 = Lt.

Fixpoint increasing (l : list string) : Prop :=
  match l with
  | [] => True
  | x :: l' => Forall (name_lt x) l' /\ increasing l'
  end.

Definition keys {T} (m : list (string * T)) : list string := fst <$> m.

(** Both maps iterate in strictly increasing order of the names, and only
    registered tests have results. *)
Definition wf (fw : Framework) : Prop :=
  increasing (keys (tests fw)) /\
  increasing (keys (results fw)) /\
  (forall name, name ∈ keys (results fw) -> name ∈ keys (tests fw)).

End FrameworkMore.

Module PoolProofs.
Import Pool PoolInv PoolPrograms.

Section counting.
Context {T : Type} (p : T -> bool).

Lemma count_app (l1 l2 : list T) : count p (l1 ++ l2) = count p l1 + count p l2.
Proof. induction l1 as [|x l1 IH]; simpl; [done | rewrite IH; lia]. Qed.

Lemma count_insert (l : list T) i x y :
  l !! i = Some x ->
  count p (<[i := y]> l) + (if p x then 1 else 0)
  = count p l + (if p y then 1 else 0).
Proof.
  revert i. induction l as [|z l IH]; intros [|i] H; simplify_eq/=.
  - lia.
  - specialize (IH _ H). lia.
Qed.

Lemma count_pos (l : list T) i x : l !! i = Some x -> p x = true -> 1 <= count p l.
Proof.
  revert i. induction l as [|z l IH]; intros [|i] H Hp; simplify_eq/=.
  - rewrite Hp. lia.
  - specialize (IH _ H Hp). lia.
Qed.

Lemma count_zero (l : list T) i x : count p l = 0 -> l !! i = Some x -> p x = false.
Proof.
  intros H0 Hl. destruct (p x) eqn:E; [|done].
  pose proof (count_pos _ _ _ Hl E). lia.
Qed.

Lemma count_two (l : list T) i j x y :
  i <> j -> l !! i = Some x -> l !! j = Some y ->
  p x = true -> p y = true -> 2 <= count p l.
Proof.
  revert i j. induction l as [|z l IH]; intros [|i] [|j] Hne Hi Hj Hx Hy;
    simplify_eq/=.
  - rewrite Hx. pose proof (count_pos _ _ _ Hj Hy). lia.
  - rewrite Hy. pose proof (count_pos _ _ _ Hi Hx). lia.
  - assert (i <> j) by lia. specialize (IH _ _ H Hi Hj Hx Hy). lia.
Qed.

Lemma count_fmap (f : T -> T) (l : list T) :
  (forall x, p (f x) = p x) -> count p (f <$> l) = count p l.
Proof. intros Hf. induction l as [|x l IH]; csimpl; [done | by rewrite Hf, IH]. Qed.

Lemma count_alter (f : T -> T) (l : list T) i :
  (forall x, p (f x) = p x) -> count p (alter f i l) = count p l.
Proof.
  intros Hf. revert i. induction l as [|x l IH]; intros [|i]; simpl; try done.
  - by rewrite Hf.
  - f_equal. apply IH.
Qed.

Lemma count_replicate n x : count p (replicate n x) = if p x then n else 0.
Proof. induction n as [|n IH]; simpl; [by destruct (p x) | rewrite IH; by destruct (p x)]. Qed.

Lemma count_notify_one (waiting : T -> bool) (wake : T -> T) ch (l : list T) :
  (forall x, p (wake x) = p x) -> count p (notify_one waiting wake ch l) = count p l.
Proof.
  intros Hf. unfold notify_one. destruct (positions waiting 0 l); [done|].
  by apply count_alter.
Qed.

Lemma count_notify_all (wake : T -> T) (l : list T) :
  (forall x, p (wake x) = p x) -> count p (notify_all wake l) = count p l.
Proof. apply count_fmap. Qed.

End counting.

Lemma count_eqb_seq j a n :
  count (Nat.eqb j) (seq a n) = if decide (a <= j < a + n) then 1 else 0.
Proof.
  revert a. induction n as [|n IH]; intros a; simpl.
  - case_decide; [lia | done].
  - rewrite IH. destruct (Nat.eqb_spec j a); repeat case_decide; lia.
Qed.


Section pool.
Context {A V : Type}.
Implicit Types (s : state A V) (a : action A V) (tr ev : list event).

Lemma map_loop_spec cat (func : function_object A V) xs q h :
  map_loop cat func xs q h
  = (seq (length h) (length xs), q ++ seq (length h) (length xs),
     h ++ (fresh_task <$> bound cat func xs)).
Proof.
  revert func q h. induction xs as [|x xs IH]; intros func q h; simpl.
  - by rewrite !app_nil_r.
  - destruct (forward cat func) as [fd func'] eqn:Ef. simpl.
    rewrite IH, length_app. simpl.
    replace (length h + 1) with (S (length h)) by lia.
    by rewrite <- !app_assoc.
Qed.

Lemma length_bound cat (func : function_object A V) xs :
  length (bound cat func xs) = length xs.
Proof.
  revert func. induction xs as [|x xs IH]; intros func; simpl; [done|].
  destruct (forward cat func). simpl. by rewrite IH.
Qed.

(** Runs compose, and an invariant of the steps is one of the runs. *)
Lemma run_app acts1 acts2 s :
  run (acts1 ++ acts2) s
  = '(tr1, s1) ← run acts1 s; '(tr2, s2) ← run acts2 s1; Some (tr1 ++ tr2, s2).
Proof.
  revert s. induction acts1 as [|a acts1 IH]; intros s; simpl.
  - destruct (run acts2 s) as [[tr2 s2]|]; done.
  - destruct (step a s) as [[ev s1]|]; simpl; [|done].
    rewrite IH. destruct (run acts1 s1) as [[tr1 s1']|]; simpl; [|done].
    destruct (run acts2 s1') as [[tr2 s2]|]; simpl; [|done].
    by rewrite app_assoc.
Qed.

Lemma run_invariant (P : list event -> state A V -> Prop) s0 :
  P [] s0 ->
  (forall tr s a ev s', P tr s -> step a s = Some (ev, s') -> P (tr ++ ev) s') ->
  forall acts tr s, run acts s0 = Some (tr, s) -> P tr s.
Proof.
  intros H0 Hstep acts.
  enough (forall tr0 s1 tr s, P tr0 s1 -> run acts s1 = Some (tr, s) ->
            P (tr0 ++ tr) s) as Hgen.
  { intros tr s Hr. apply (Hgen [] s0 tr s H0 Hr). }
  induction acts as [|a acts IH]; intros tr0 s1 tr s HP Hr; simpl in Hr.
  - simplify_eq. by rewrite app_nil_r.
  - destruct (step a s1) as [[ev s2]|] eqn:Es; simpl in Hr; [|done].
    destruct (run acts s2) as [[tr2 s3]|] eqn:Er; simpl in Hr; [|done].
    simplify_eq. rewrite app_assoc. eapply IH; [|done]. by eapply Hstep.
Qed.

Lemma reachable_invariant (P : state A V -> Prop) :
  (forall Policy n m s0, thread_pool Policy n m = inr s0 -> P s0) ->
  (forall s a ev s', P s -> step a s = Some (ev, s') -> P s') ->
  forall s, reachable s -> P s.
Proof.
  intros H0 Hstep s (Policy & n & m & s0 & acts & tr & Hc & Hr).
  apply (run_invariant (fun _ => P) s0 (H0 _ _ _ _ Hc)) with acts tr; [|done].
  intros. by eapply Hstep.
Qed.

Lemma reachable_run s acts tr s' :
  reachable s -> run acts s = Some (tr, s') -> reachable s'.
Proof.
  intros (Policy & n & m & s0 & acts0 & tr0 & Hc & Hr) Hr'.
  exists Policy, n, m, s0, (acts0 ++ acts), (tr0 ++ tr). split; [done|].
  rewrite run_app, Hr. simpl. by rewrite Hr'.
Qed.

Lemma reachable_step s a ev s' :
  reachable s -> step a s = Some (ev, s') -> reachable s'.
Proof.
  intros Hs Hst. apply (reachable_run s [a] ev s' Hs).
  simpl. rewrite Hst. simpl. by rewrite app_nil_r.
Qed.

Lemma thread_pool_inr Policy n m s0 :
  thread_pool (A:=A) (V:=V) Policy n m = inr s0 ->
  n <> 0 /\
  s0 = {| policy := Policy; workers := replicate n WLock; tasks := [];
          task_mutex := false; stop := false; heap := [];
          clients := replicate m CIdle |}.
Proof.
  unfold thread_pool. destruct (Nat.eqb_spec n 0); naive_solver.
Qed.

End pool.

(** Case analysis on a step: one goal per program point. *)
Ltac step_cases H :=
  unfold step, call_member, client_step, worker_func, destroy,
    apply, apply_get, map, map_get, apply_, map_, join, terminate,
    terminate_return, destroy_members, throw,
    make_shared, invoke, returned in H;
  repeat (simplify_option_eq; try rewrite map_loop_spec in H; try case_match);
  simplify_eq; simpl in *.

Ltac count_facts :=
  repeat match goal with
  | H : ?l !! ?i = Some ?x |- context [count ?p (<[?i := ?y]> ?l)] =>
      lazymatch goal with
      | _ : count p (<[i := y]> l) + _ = _ |- _ => fail
      | _ => let H' := fresh "Hc" in
             pose proof (count_insert p l i x y H) as H'; simpl in H'
      end
  end.

Section invariants.
Context {A V : Type}.
Implicit Types (s : state A V) (a : action A V) (tr ev : list event).
Implicit Types (pt : packaged_task V).

Lemma notify_one_lookup {T} (waiting : T -> bool) (wake : T -> T) ch
    (l : list T) i y :
  notify_one waiting wake ch l !! i = Some y ->
  exists x, l !! i = Some x /\ (y = x \/ y = wake x).
Proof.
  unfold notify_one. destruct (positions waiting 0 l) as [|k rest]; [eauto|].
  set (t := nth _ _ _). intros H. destruct (decide (t = i)) as [->|Hne].
  - rewrite list_lookup_alter_eq in H.
    destruct (l !! i) as [x|]; simplify_eq/=. eauto.
  - rewrite list_lookup_alter_ne in H by done. eauto.
Qed.

Lemma notify_all_lookup {T} (wake : T -> T) (l : list T) i y :
  notify_all wake l !! i = Some y ->
  exists x, l !! i = Some x /\ y = wake x.
Proof.
  unfold notify_all. rewrite list_lookup_fmap.
  destruct (l !! i) as [x|]; intros; simplify_eq/=. eauto.
Qed.

Lemma invocable_ge (h : list (packaged_task V)) j :
  length h <= j -> invocable j h = 0.
Proof. intros H. unfold invocable. by rewrite lookup_ge_None_2. Qed.

Lemma invocable_app_fresh (h : list (packaged_task V)) fs j :
  invocable j (h ++ (fresh_task <$> fs))
  = if decide (j < length h) then invocable j h
    else if decide (j < length h + length fs) then 1 else 0.
Proof.
  unfold invocable. case_decide as Hj.
  - by rewrite lookup_app_l.
  - rewrite lookup_app_r, list_lookup_fmap by lia. case_decide as Hj2.
    + destruct (lookup_lt_is_Some_2 fs (j - length h)) as [f Hf]; [lia|].
      by rewrite Hf.
    + by rewrite lookup_ge_None_2 by lia.
Qed.

Lemma invocable_insert (h : list (packaged_task V)) j0 j f o :
  invocable j (<[j0 := {| fn := f; shared_state := Some o |}]> h)
  = if decide (j = j0) then 0 else invocable j h.
Proof.
  unfold invocable. case_decide as Hj.
  - subst. destruct (decide (j0 < length h)).
    + by rewrite list_lookup_insert_eq.
    + by rewrite lookup_ge_None_2 by (rewrite length_insert; lia).
  - by rewrite list_lookup_insert_ne.
Qed.

Lemma invocable_one (h : list (packaged_task V)) j :
  1 <= invocable j h ->
  exists f, h !! j = Some {| fn := f; shared_state := None |}.
Proof.
  unfold invocable. destruct (h !! j) as [[f [o|]]|]; simpl; try lia. eauto.
Qed.

Lemma mutex_inv_step s a ev s' :
  inv s -> step a s = Some (ev, s') -> mutex_inv s'.
Proof.
  intros (Hi & Hf & _) H. unfold mutex_inv, holders in *.
  destruct a; step_cases H;
  rewrite ?count_notify_one, ?count_notify_all by (by intros []);
  count_facts; try lia.
  match goal with Hw : workers _ !! _ = Some WPop |- _ =>
    specialize (Hf _ _ Hw) end. done.
Qed.

Lemma front_inv_free s : mutex_inv s -> task_mutex s = false -> front_inv s.
Proof.
  unfold mutex_inv, holders. intros Hm Hf i w Hw. rewrite Hf in Hm.
  assert (wholds w = false) as Hh.
  { eapply count_zero; [|done]. lia. }
  by destruct w.
Qed.

Ltac lookup_cases H :=
  match type of H with
  | <[?i := _]> ?l !! ?i0 = Some _ =>
      destruct (decide (i0 = i)) as [->|?];
      [ rewrite list_lookup_insert_eq in H by (eapply lookup_lt_Some; eauto)
      | rewrite list_lookup_insert_ne in H by done ]
  | notify_one _ _ _ _ !! _ = Some _ =>
      let Heq := fresh "Heq" in
      apply notify_one_lookup in H; destruct H as (? & H & [Heq|Heq]);
      try subst
  | notify_all _ _ !! _ = Some _ =>
      let Heq := fresh "Heq" in
      apply notify_all_lookup in H; destruct H as (? & H & Heq);
      try subst
  end.

Lemma front_inv_step s a ev s' :
  inv s -> step a s = Some (ev, s') -> front_inv s'.
Proof.
  intros Hinv H. pose proof (mutex_inv_step _ _ _ _ Hinv H) as Hm'.
  destruct Hinv as (Hi & Hf & _).
  destruct (task_mutex s') eqn:Em; [|by apply front_inv_free].
  clear Hm'. unfold front_inv in *.
  destruct a; step_cases H; intros i0 w Hw; try lookup_cases Hw;
    simplify_eq; try done;
    repeat match goal with
    | Hl : workers _ !! _ = Some _ |- _ =>
        let Hl' := fresh in pose proof (Hf _ _ Hl) as Hl'; clear Hl
    end;
    try (destruct w; simpl in *; intuition congruence);
    try (match goal with x : wstate |- _ =>
           destruct x; simpl in *; intuition congruence end).
  all: destruct (stop s) eqn:?, (tasks s) eqn:?; simpl in *;
    intuition congruence.
Qed.


Lemma invocable_app_one (h : list (packaged_task V)) f j :
  invocable j (h ++ [{| fn := f; shared_state := None |}])
  = if decide (j < length h) then invocable j h
    else if decide (j = length h) then 1 else 0.
Proof.
  change [{| fn := f; shared_state := None |}] with (fresh_task <$> [f]).
  rewrite invocable_app_fresh. simpl. repeat case_decide; lia.
Qed.

Lemma invocable_le (h : list (packaged_task V)) j : invocable j h <= 1.
Proof. unfold invocable. repeat case_match; lia. Qed.

(** ** The destruction of the members *)

Lemma forallb_count {T} (p q : T -> bool) (l : list T) :
  (forall x, p x = true -> q x = false) ->
  forallb p l = true -> count q l = 0.
Proof.
  intros Hpq. induction l as [|x l IH]; simpl; [done|].
  intros [Hx Hl]%andb_true_iff. by rewrite (Hpq _ Hx), IH.
Qed.

Lemma forallb_lookup {T} (p : T -> bool) (l : list T) i x :
  forallb p l = true -> l !! i = Some x -> p x = true.
Proof.
  revert i. induction l as [|y l IH]; intros [|i]; simpl; try done.
  - intros [Hy _]%andb_true_iff. congruence.
  - intros [_ Hl]%andb_true_iff. by apply IH.
Qed.

(** What the destructor has checked when it destroys the members. *)
Lemma quiescent s c :
  forallb exited (workers s) && forallb outside (<[c := CIdle]> (clients s))
  = true ->
  count running (workers s) = 0 /\
  (forall i w, workers s !! i = Some w -> w = WExited) /\
  (forall j, count (cpending j) (<[c := CIdle]> (clients s)) = 0) /\
  (forall c' st, c' <> c -> clients s !! c' = Some st -> outside st = true).
Proof.
  intros [Hw Hc]%andb_true_iff. split_and!.
  - apply (forallb_count exited); [|done]. by intros [].
  - intros i w Hi. pose proof (forallb_lookup _ _ _ _ Hw Hi). by destruct w.
  - intros j. apply (forallb_count outside); [|done]. by intros [].
  - intros c' st Hne Hst. apply (forallb_lookup _ _ c' _ Hc).
    by rewrite list_lookup_insert_ne.
Qed.

Lemma lookup_destroy_tasks (q : list nat) (h : list (packaged_task V)) j :
  destroy_tasks q h !! j
  = (if bool_decide (j ∈ q) then abandon else id) <$> h !! j.
Proof.
  revert h. induction q as [|j0 q IH]; intros h; simpl.
  - by destruct (h !! j).
  - rewrite IH. destruct (decide (j = j0)) as [->|Hne].
    + rewrite list_lookup_alter_eq.
      rewrite (bool_decide_eq_true_2 (j0 ∈ j0 :: q)) by left.
      destruct (h !! j0) as [pt|]; simpl; [|done].
      case_bool_decide; [|done]. f_equal. by destruct pt as [f [o|]].
    + rewrite list_lookup_alter_ne by done.
      destruct (h !! j) as [pt|]; simpl; [|done].
      repeat case_bool_decide; try done.
      * exfalso. match goal with Hn : j ∉ _ |- _ => apply Hn end. by right.
      * match goal with Hin : j ∈ _ :: _ |- _ =>
          apply elem_of_cons in Hin as [?|?]; done end.
Qed.

Lemma length_destroy_tasks (q : list nat) (h : list (packaged_task V)) :
  length (destroy_tasks q h) = length h.
Proof.
  revert h. induction q as [|j0 q IH]; intros h; simpl; [done|].
  by rewrite IH, length_alter.
Qed.

Lemma invocable_destroy_tasks (q : list nat) (h : list (packaged_task V)) j :
  invocable j (destroy_tasks q h) <= invocable j h.
Proof.
  unfold invocable. rewrite lookup_destroy_tasks.
  destruct (h !! j) as [[f [o|]]|]; simpl; try lia;
    case_bool_decide; simpl; lia.
Qed.

Lemma owner_inv_step s a ev s' :
  inv s -> step a s = Some (ev, s') -> owner_inv s'.
Proof.
  intros (_ & _ & Ho & _) H j. specialize (Ho j).
  pose proof (invocable_le (heap s) j) as Hle.
  pose proof (invocable_ge (heap s) j) as Hge.
  unfold occurrences in *.
  destruct a; step_cases H;
    rewrite ?count_notify_one, ?count_notify_all by (by intros []);
    rewrite ?count_app, ?count_eqb_seq, ?invocable_app_fresh,
      ?invocable_app_one, ?invocable_insert, ?length_bound;
    count_facts; simpl in *;
    repeat case_decide;
    repeat match goal with
    | _ : context [Nat.eqb ?x ?y] |- _ => destruct (Nat.eqb_spec x y)
    | |- context [Nat.eqb ?x ?y] => destruct (Nat.eqb_spec x y)
    end;
    repeat match goal with
    | Hw : workers ?s0 !! _ = Some _ |- _ =>
        lazymatch goal with
        | _ : 1 <= count running (workers s0) |- _ => fail
        | _ => pose proof (count_pos running _ _ _ Hw eq_refl)
        end
    | Hq : forallb exited _ && forallb outside _ = true |- _ =>
        apply quiescent in Hq; destruct Hq as (? & _ & Hq & _);
        specialize (Hq j)
    end;
    try lia.
  all: try (match goal with Ht : tasks _ = [] |- _ => rewrite Ht end; simpl; lia).
Qed.

Lemma term_inv_step s a ev s' :
  inv s -> step a s = Some (ev, s') -> term_inv s'.
Proof.
  intros (_ & _ & _ & Ht & _) H. unfold term_inv in *.
  destruct a; step_cases H; intros c0 st Hc; try lookup_cases Hc;
    simplify_eq; try done;
    repeat match goal with
    | Hl : clients _ !! _ = Some _ |- _ =>
        let Hl' := fresh in pose proof (Ht _ _ Hl) as Hl'; clear Hl
    end;
    try (destruct st; simpl in *; done);
    try (match goal with x : cstate _ _ |- _ => destruct x; simpl in *; done end).
  all: simpl in *; done.
Qed.

Ltac not_in_events :=
  let Hin := fresh "Hin" in
  intros ? Hin;
  repeat first
    [ apply elem_of_nil in Hin
    | apply elem_of_cons in Hin as [Hin|Hin]
    | apply elem_of_app in Hin as [Hin|Hin]
    | apply list_elem_of_fmap in Hin as (? & Hin & _) ];
  done.

Lemma running_invocable s i j :
  owner_inv s -> workers s !! i = Some (WRun j) ->
  exists f, heap s !! j = Some {| fn := f; shared_state := None |}.
Proof.
  intros Ho Hw. apply invocable_one. specialize (Ho j).
  unfold occurrences in Ho.
  pose proof (count_pos (wruns j) _ _ _ Hw) as Hc. simpl in Hc.
  rewrite Nat.eqb_refl in Hc. specialize (Hc eq_refl).
  pose proof (count_pos running _ _ _ Hw eq_refl). lia.
Qed.

Lemma no_crash_step s a ev s' :
  inv s -> step a s = Some (ev, s') ->
  no_crash s' /\ forall w, ECrash w ∉ ev.
Proof.
  intros (_ & Hf & Ho & _ & Hn) H. unfold no_crash in *.
  destruct a; step_cases H.
  all: try (split; [done | not_in_events]).
  all: try match goal with
    | Hw : workers _ !! _ = Some WPop, Ht : tasks _ = [] |- _ =>
        by destruct (Hf _ _ Hw)
    | Hw : workers _ !! _ = Some (WRun _) |- _ =>
        destruct (running_invocable _ _ _ Ho Hw); simplify_eq
    end.
  all: split; [|not_in_events].
  all: intros i0 Hw; lookup_cases Hw; simplify_eq;
    try (by eapply Hn);
    match goal with x : wstate |- _ => destruct x; simplify_eq/= end;
    by eapply Hn.
Qed.

Lemma inv_step s a ev s' : inv s -> step a s = Some (ev, s') -> inv s'.
Proof.
  intros Hi H. repeat split.
  - by eapply mutex_inv_step.
  - by eapply front_inv_step.
  - by eapply owner_inv_step.
  - by eapply term_inv_step.
  - by eapply no_crash_step.
Qed.

Lemma inv_thread_pool Policy n m s0 :
  thread_pool Policy n m = inr s0 -> inv s0.
Proof.
  intros [_ ->]%thread_pool_inr. repeat split.
  - unfold mutex_inv, holders. simpl. by rewrite !count_replicate.
  - intros i w [-> _]%lookup_replicate. done.
  - intros j. unfold occurrences. simpl. rewrite !count_replicate. simpl. lia.
  - intros c st [-> _]%lookup_replicate. done.
  - intros i [? _]%lookup_replicate. done.
Qed.

Lemma inv_reachable s : reachable s -> inv s.
Proof.
  apply reachable_invariant.
  - apply inv_thread_pool.
  - apply inv_step.
Qed.

Lemma inv_run s acts tr s' : inv s -> run acts s = Some (tr, s') -> inv s'.
Proof.
  intros Hi Hr.
  apply (run_invariant (fun _ => inv) s Hi) with acts tr; [|done].
  intros. by eapply inv_step.
Qed.


(** ** Events of a step *)

Lemma pushed_app tr1 tr2 : pushed (tr1 ++ tr2) = pushed tr1 ++ pushed tr2.
Proof. apply bind_app. Qed.
Lemma popped_app tr1 tr2 : popped (tr1 ++ tr2) = popped tr1 ++ popped tr2.
Proof. apply bind_app. Qed.
Lemma pushed_EPush l : pushed (EPush <$> l) = l.
Proof.
  unfold pushed. induction l as [|x l IH]; [done|].
  by rewrite fmap_cons, bind_cons, IH.
Qed.
Lemma popped_EPush l : popped (EPush <$> l) = [].
Proof.
  unfold popped. induction l as [|x l IH]; [done|].
  by rewrite fmap_cons, bind_cons, IH.
Qed.

(** Pushes go to the back of the queue and pops take from its front. *)
Lemma fifo_step s a ev s' :
  step a s = Some (ev, s') -> tasks s ++ pushed ev = popped ev ++ tasks s'.
Proof.
  intros H. destruct a; step_cases H;
    rewrite ?pushed_app, ?popped_app, ?pushed_EPush, ?popped_EPush;
    simpl; rewrite ?app_nil_r; try done.
  all: match goal with Ht : tasks _ = _ |- _ => by rewrite Ht end.
Qed.

Lemma fifo_run s acts tr s' :
  run acts s = Some (tr, s') -> tasks s ++ pushed tr = popped tr ++ tasks s'.
Proof.
  revert s tr. induction acts as [|a acts IH]; intros s tr Hr; simpl in Hr.
  - simplify_eq. simpl. by rewrite app_nil_r.
  - destruct (step a s) as [[ev s1]|] eqn:Es; simpl in Hr; [|done].
    destruct (run acts s1) as [[tr2 s3]|] eqn:Er; simpl in Hr; [|done].
    simplify_eq. rewrite pushed_app, popped_app.
    rewrite app_assoc, (fifo_step _ _ _ _ Es), <- !app_assoc.
    by rewrite (IH _ _ Er).
Qed.

Lemma stop_step s a ev s' :
  step a s = Some (ev, s') -> stop s = true -> stop s' = true.
Proof. intros H Hs. destruct a; step_cases H; done. Qed.

Lemma map_pushed_inv tr s c st n (h' : list (packaged_task V)) :
  owner_inv s ->
  NoDup (pushed tr) ->
  (forall j, j ∈ pushed tr -> count (cpending j) (clients s) = 0) ->
  (forall j, j ∈ pushed tr -> j < length (heap s)) ->
  clients s !! c = Some st ->
  length h' = n ->
  NoDup (pushed tr ++ seq (length (heap s)) n) /\
  (forall j, j ∈ pushed tr ++ seq (length (heap s)) n ->
     j < length (heap s ++ h') /\
     count (cpending j) (<[c := CIdle]> (clients s)) = 0).
Proof.
  intros Ho Hnd Hp0 Hp1 Hc Hn. split.
  - apply NoDup_app. split_and!; [done| |apply NoDup_seq].
    intros x Hx [Hge _]%elem_of_seq. specialize (Hp1 _ Hx). lia.
  - intros j Hj. rewrite length_app, Hn.
    pose proof (count_insert (cpending j) _ _ _ CIdle Hc) as Hci.
    simpl in Hci.
    apply elem_of_app in Hj as [Hj|[Hge Hlt]%elem_of_seq].
    + specialize (Hp0 _ Hj). specialize (Hp1 _ Hj). split; lia.
    + specialize (Ho j). unfold occurrences in Ho.
      rewrite invocable_ge in Ho by lia. split; lia.
Qed.

Lemma pushed_inv_step tr s a ev s' :
  inv s -> pushed_inv tr s -> step a s = Some (ev, s') ->
  pushed_inv (tr ++ ev) s'.
Proof.
  intros (_ & _ & Ho & _) [Hnd Hp] H. unfold pushed_inv.
  rewrite pushed_app.
  assert (forall j, j ∈ pushed tr -> count (cpending j) (clients s) = 0)
    as Hp0 by (intros; by apply Hp).
  assert (forall j, j ∈ pushed tr -> j < length (heap s))
    as Hp1 by (intros; by apply Hp).
  assert (forall j, count (cpending j) (clients s) <= invocable j (heap s))
    as Ho'.
  { intros j. destruct (Ho j) as [Hj|[_ Hj]]; unfold occurrences in *; lia. }
  clear Hp.
  destruct a; step_cases H;
    rewrite ?pushed_app, ?pushed_EPush, ?app_nil_r; simpl;
    rewrite ?app_nil_r.
  all: try (split; [done|]; intros j0 Hj; specialize (Hp0 _ Hj);
            specialize (Hp1 _ Hj);
            rewrite ?count_notify_one, ?count_notify_all by (by intros []);
            rewrite ?length_app, ?length_insert, ?length_destroy_tasks; simpl;
            count_facts; simpl in *;
            repeat match goal with
            | _ : context [Nat.eqb ?x ?y] |- _ => destruct (Nat.eqb_spec x y)
            end; split; lia).
  - (* apply, apply_get: the job was held by this client only *)
    pose proof (count_pos (cpending j) _ _ _ Heqo) as Hc. simpl in Hc.
    rewrite Nat.eqb_refl in Hc. specialize (Hc eq_refl).
    pose proof (Ho' j) as Hoj.
    pose proof (invocable_le (heap s) j) as Hle.
    assert (j ∉ pushed tr) as Hnew.
    { intros Hin. specialize (Hp0 _ Hin). lia. }
    split.
    + apply NoDup_app. split_and!; [done| |apply NoDup_singleton].
      intros x Hx ->%list_elem_of_singleton. done.
    + intros j0 [Hj| ->%list_elem_of_singleton]%elem_of_app.
      * specialize (Hp0 _ Hj). specialize (Hp1 _ Hj).
        count_facts. simpl in *. split; [done|].
        destruct (Nat.eqb_spec j0 j); lia.
      * count_facts. simpl in *. rewrite Nat.eqb_refl in *. split; [|lia].
        destruct (decide (j < length (heap s))); [done|].
        rewrite invocable_ge in Hoj by lia. lia.
  - (* map_get: the jobs are new *)
    eapply map_pushed_inv; eauto. by rewrite length_fmap, length_bound.
  - eapply map_pushed_inv; eauto. by rewrite length_fmap, length_bound.
Qed.


(** ** The free store only grows, and a shared state is written once *)

Lemma evolves_refl pt : evolves pt pt.
Proof. split; [done | by left]. Qed.

Lemma evolves_trans (pt1 pt2 pt3 : packaged_task V) :
  evolves pt1 pt2 -> evolves pt2 pt3 -> evolves pt1 pt3.
Proof.
  intros [Hf1 H1] [Hf2 H2]. split; [congruence|].
  destruct H1 as [H1|[[H1 H1']|[H1 H1']]], H2 as [H2|[[H2 H2']|[H2 H2']]];
    try congruence.
  - left. congruence.
  - right. left. split; congruence.
  - right. right. split; congruence.
  - right. left. split; congruence.
  - right. right. split; congruence.
Qed.

Lemma completed_app tr1 tr2 :
  completed (tr1 ++ tr2) = completed tr1 ++ completed tr2.
Proof. apply bind_app. Qed.

Lemma completed_EPush l : completed (EPush <$> l) = [].
Proof.
  unfold completed. induction l as [|x l IH]; [done|].
  by rewrite fmap_cons, bind_cons, IH.
Qed.

Lemma abandoned (q : list nat) (h : list (packaged_task V)) j pt :
  h !! j = Some pt ->
  exists pt', destroy_tasks q h !! j = Some pt' /\ fn pt' = fn pt /\
    (shared_state pt' = shared_state pt \/
     (shared_state pt = None /\
      shared_state pt' = Some (Exception broken_promise) /\ j ∈ q)).
Proof.
  intros Hj. rewrite lookup_destroy_tasks, Hj. simpl.
  case_bool_decide; [|exists pt; tauto].
  destruct pt as [f [o|]]; eexists; (split; [done|]); simpl; tauto.
Qed.

Lemma abandoned_resolution (q : list nat) (h : list (packaged_task V)) j pt
    (c : nat) :
  h !! j = Some pt ->
  exists pt', destroy_tasks q h !! j = Some pt' /\ fn pt' = fn pt /\
    ((shared_state pt' = shared_state pt /\ (j ∉ @nil nat)) \/
     (shared_state pt = None /\ shared_state pt' = Some (fn pt tt) /\
      j ∈ @nil nat) \/
     (shared_state pt = None /\
      shared_state pt' = Some (Exception broken_promise) /\
      (j ∉ @nil nat) /\ (j ∈ q) /\
      exists c0, EReturn c0 destroy_ret
                 ∈ [EReturn c terminate_ret; EReturn c destroy_ret])).
Proof.
  intros Hj.
  destruct (abandoned q _ _ _ Hj) as (pt' & Hj' & Hf' & [He|(He & He' & Hin)]);
    exists pt'; (split; [done|]); (split; [done|]).
  - left. split; [done | by intros ?%elem_of_nil].
  - right. right. split_and!; try done; [by intros ?%elem_of_nil|].
    exists c. apply list_elem_of_further, list_elem_of_here.
Qed.

(** The shared state of a task is written in two ways only: by the worker
    that runs the job, with what the callable returns, and by the
    destructor, for a job that is still in the queue, with
    [broken_promise]. *)
Lemma resolution_step s a ev s' j pt :
  step a s = Some (ev, s') -> heap s !! j = Some pt ->
  exists pt', heap s' !! j = Some pt' /\ fn pt' = fn pt /\
    ((shared_state pt' = shared_state pt /\ (j ∉ completed ev)) \/
     (shared_state pt = None /\ shared_state pt' = Some (fn pt tt) /\
      j ∈ completed ev) \/
     (shared_state pt = None /\
      shared_state pt' = Some (Exception broken_promise) /\
      (j ∉ completed ev) /\ (j ∈ tasks s) /\
      exists c, EReturn c destroy_ret ∈ ev)).
Proof.
  intros H Hj. destruct a; step_cases H;
    rewrite ?completed_app, ?completed_EPush; simpl.
  all: try (exists pt; split; [done|]; split; [done|]; left;
            split; [done | by intros ?%elem_of_nil]).
  all: try (exists pt; split; [by apply lookup_app_l_Some|]; split; [done|];
            left; split; [done | by intros ?%elem_of_nil]).
  all: try (by apply abandoned_resolution).
  match goal with |- context [<[?j0 := ?x]> _] =>
    destruct (decide (j = j0)) as [->|Hne];
    [ exists x; rewrite list_lookup_insert_eq by (by eapply lookup_lt_Some)
    | exists pt; rewrite list_lookup_insert_ne by done ] end.
  - simplify_eq. split; [done|]. split; [done|]. right. left.
    split_and!; [done..|]. simpl. left.
  - split; [done|]. split; [done|]. left. split; [done|].
    intros ?%list_elem_of_singleton. done.
Qed.

Lemma resolution_run s acts tr s' j pt :
  run acts s = Some (tr, s') -> heap s !! j = Some pt ->
  exists pt', heap s' !! j = Some pt' /\ fn pt' = fn pt /\
    ((shared_state pt' = shared_state pt /\ (j ∉ completed tr)) \/
     (shared_state pt = None /\ shared_state pt' = Some (fn pt tt) /\
      j ∈ completed tr) \/
     (shared_state pt = None /\
      shared_state pt' = Some (Exception broken_promise) /\
      (j ∉ completed tr) /\ exists c, EReturn c destroy_ret ∈ tr)).
Proof.
  revert s tr pt. induction acts as [|a acts IH]; intros s tr pt Hr Hj;
    simpl in Hr.
  - simplify_eq. exists pt. split; [done|]. split; [done|]. left.
    split; [done | by intros ?%elem_of_nil].
  - destruct (step a s) as [[ev s1]|] eqn:Es; simpl in Hr; [|done].
    destruct (run acts s1) as [[tr2 s3]|] eqn:Er; simpl in Hr; [|done].
    simplify_eq.
    destruct (resolution_step _ _ _ _ _ _ Es Hj) as (pt1 & Hj1 & Hf1 & H1).
    destruct (IH _ _ _ Er Hj1) as (pt2 & Hj2 & Hf2 & H2).
    exists pt2. split; [done|]. split; [congruence|].
    rewrite completed_app. setoid_rewrite elem_of_app.
    destruct H1 as [[H1 Hn1]|[(H1 & H1' & Hc1)|(H1 & H1' & Hn1 & _ & c & Hc1)]],
      H2 as [[H2 Hn2]|[(H2 & H2' & Hc2)|(H2 & H2' & Hn2 & c2 & Hc2)]];
      try congruence.
    + left. split; [congruence | tauto].
    + right. left. split_and!; [congruence | congruence | tauto].
    + right. right. split_and!; [congruence | congruence | tauto | eauto].
    + right. left. split_and!; [congruence | congruence | tauto].
    + right. right. split_and!; [congruence | congruence | tauto | eauto].
Qed.

Lemma heap_step s a ev s' j pt :
  step a s = Some (ev, s') -> heap s !! j = Some pt ->
  exists pt', heap s' !! j = Some pt' /\ evolves pt pt'.
Proof.
  intros H Hj.
  destruct (resolution_step _ _ _ _ _ _ H Hj) as (pt' & Hj' & Hf & He).
  exists pt'. split; [done|]. split; [done|]. tauto.
Qed.

Lemma heap_run s acts tr s' j pt :
  run acts s = Some (tr, s') -> heap s !! j = Some pt ->
  exists pt', heap s' !! j = Some pt' /\ evolves pt pt'.
Proof.
  intros H Hj.
  destruct (resolution_run _ _ _ _ _ _ H Hj) as (pt' & Hj' & Hf & He).
  exists pt'. split; [done|]. split; [done|]. tauto.
Qed.

(** What a future reads once it is ready: what the callable returned if
    the job ran, [broken_promise] if it was still queued when the pool was
    destroyed. *)
Lemma future_get_run s acts tr s' j f o :
  run acts s = Some (tr, s') ->
  heap s !! j = Some {| fn := f; shared_state := None |} ->
  future_get j s' = Some o -> resolved j (f tt) tr o.
Proof.
  intros Hr Hj Hg.
  destruct (resolution_run _ _ _ _ _ _ Hr Hj) as (pt' & Hj' & Hf & He).
  unfold future_get in Hg. rewrite Hj' in Hg. simpl in *.
  destruct He as [[He _]|[(_ & He & Hc)|(_ & He & Hn & Hd)]].
  - congruence.
  - left. split; [done | congruence].
  - right. split_and!; [done | congruence | done].
Qed.



Lemma future_ready_step s a ev s' j :
  step a s = Some (ev, s') ->
  is_Some (future_get j s) -> is_Some (future_get j s').
Proof.
  intros H [o Ho]. unfold future_get in *.
  destruct (heap s !! j) as [pt|] eqn:Hj; simplify_eq/=.
  destruct (heap_step _ _ _ _ _ _ H Hj) as (pt' & -> & _ & He). simpl.
  destruct He as [He|[[He _]|[He _]]]; [rewrite He, Ho; eauto | congruence..].
Qed.

Lemma notify_one_lookup_fixed {T} (waiting : T -> bool) (wake : T -> T) ch
    (l : list T) i x :
  l !! i = Some x -> wake x = x -> notify_one waiting wake ch l !! i = Some x.
Proof.
  intros Hl Hx. unfold notify_one.
  destruct (positions waiting 0 l) as [|k rest]; [done|].
  set (t := nth _ _ _). destruct (decide (t = i)) as [->|Hne].
  - by rewrite list_lookup_alter_eq, Hl; simpl; rewrite Hx.
  - by rewrite list_lookup_alter_ne.
Qed.

Lemma notify_all_lookup_fixed {T} (wake : T -> T) (l : list T) i x :
  l !! i = Some x -> wake x = x -> notify_all wake l !! i = Some x.
Proof.
  intros Hl Hx. unfold notify_all. by rewrite list_lookup_fmap, Hl; simpl; rewrite Hx.
Qed.

(** A job in the hands of a worker stays there until it has run. *)
Lemma running_step s a ev s' i j :
  inv s -> step a s = Some (ev, s') -> workers s !! i = Some (WRun j) ->
  workers s' !! i = Some (WRun j) \/ is_Some (future_get j s').
Proof.
  intros (_ & Hf & Ho & _) H Hw.
  destruct (running_invocable _ _ _ Ho Hw) as [f Hj].
  destruct a; step_cases H; unfold future_get; simpl;
    try (left; done);
    try (left; by apply notify_one_lookup_fixed);
    try (left; by apply notify_all_lookup_fixed);
    try (match goal with |- context [<[?i0 := _]> (workers _) !! _] =>
           destruct (decide (i = i0)) as [->|Hne];
           [ simplify_eq | left; by rewrite list_lookup_insert_ne ] end).
  right. rewrite list_lookup_insert_eq by (by eapply lookup_lt_Some).
  simpl. eauto.
Qed.

Lemma in_flight_step tr s a ev s' :
  inv s -> in_flight tr s -> step a s = Some (ev, s') ->
  in_flight (tr ++ ev) s'.
Proof.
  intros Hinv Hfl H j. rewrite popped_app.
  intros [Hj|Hj]%elem_of_app.
  - destruct (Hfl j Hj) as [Hr|[i Hi]].
    + left. by eapply future_ready_step.
    + destruct (running_step _ _ _ _ _ _ Hinv H Hi); eauto.
  - right. clear Hfl. destruct a; step_cases H;
      rewrite ?popped_app, ?popped_EPush in Hj; simpl in Hj;
      try (by apply elem_of_nil in Hj).
    apply list_elem_of_singleton in Hj as ->.
    eexists. by apply list_lookup_insert_eq, lookup_lt_Some with WPop.
Qed.

Lemma terminated_inv_step tr s a ev s' :
  inv s -> terminated_inv tr s -> step a s = Some (ev, s') ->
  terminated_inv (tr ++ ev) s'.
Proof.
  intros (_ & _ & _ & Ht & _) Htr H c0 [Hc|Hc]%elem_of_app.
  - eapply stop_step; eauto.
  - clear Htr. destruct a; step_cases H;
      repeat first
        [ apply elem_of_nil in Hc
        | apply elem_of_cons in Hc as [Hc|Hc]
        | apply elem_of_app in Hc as [Hc|Hc]
        | apply list_elem_of_fmap in Hc as (? & Hc & _) ];
      simplify_eq; try done;
      try (repeat case_match; simplify_eq; done).
    all: match goal with Hl : clients _ !! _ = Some (CTermJoin _ _) |- _ =>
           apply (Ht _ _ Hl) end.
Qed.

Lemma trace_inv_run Policy n m s0 acts tr s :
  thread_pool Policy n m = inr s0 -> run acts s0 = Some (tr, s) ->
  trace_inv tr s.
Proof.
  intros Hc. apply run_invariant.
  - split; [by eapply inv_thread_pool|]. split_and!.
    + split; [apply NoDup_nil_2 | by intros j ?%elem_of_nil].
    + by intros j ?%elem_of_nil.
    + by intros c ?%elem_of_nil.
  - clear. intros tr s a ev s' (Hi & Hp & Hf & Ht) H. split_and!.
    + by eapply inv_step.
    + by eapply pushed_inv_step.
    + by eapply in_flight_step.
    + by eapply terminated_inv_step.
Qed.


Lemma run_snoc s0 acts tr s a ev s' :
  run acts s0 = Some (tr, s) -> step a s = Some (ev, s') ->
  run (acts ++ [a]) s0 = Some (tr ++ ev, s').
Proof.
  intros Hr Hs. rewrite run_app, Hr. simpl. rewrite Hs. simpl.
  by rewrite app_nil_r.
Qed.

Lemma set_client_id s c st : clients s !! c = Some st -> set_client c st s = s.
Proof.
  intros H. unfold set_client, set_clients. rewrite list_insert_id by done.
  by destruct s.
Qed.

Lemma NoDup_split_inj {T} (a a' b b' : list T) x :
  NoDup (a ++ x :: b) -> a ++ x :: b = a' ++ x :: b' -> a = a' /\ b = b'.
Proof.
  revert a'. induction a as [|y a IH]; intros [|y' a'] Hnd Heq; simpl in *.
  - by injection Heq.
  - injection Heq as <- Heq. apply NoDup_cons in Hnd as [Hn _].
    exfalso. apply Hn. rewrite Heq. apply elem_of_app. right. left.
  - injection Heq as -> Heq. apply NoDup_cons in Hnd as [Hn _].
    exfalso. apply Hn. apply elem_of_app. right. left.
  - injection Heq as <- Heq. apply NoDup_cons in Hnd as [_ Hnd].
    destruct (IH _ Hnd Heq) as [-> ->]. done.
Qed.

(** The queue of a constructed pool is what was pushed and not yet
    popped. *)
Lemma fifo_constructed Policy n m s0 acts tr s :
  thread_pool Policy n m = inr s0 -> run acts s0 = Some (tr, s) ->
  pushed tr = popped tr ++ tasks s.
Proof.
  intros Hc Hr. pose proof (fifo_run _ _ _ _ Hr) as H.
  apply thread_pool_inr in Hc as [_ ->]. done.
Qed.

(** ** The claims *)

(** C8.  Global FIFO: in every execution of a constructed pool the jobs
    dequeued so far followed by the jobs still in the queue are exactly the
    jobs enqueued so far, in the order of enqueueing; no job is enqueued
    twice; hence of two jobs the one pushed first is popped first. *)
Theorem fifo_dispatch Policy n m s0 acts tr s :
  thread_pool Policy n m = inr s0 -> run acts s0 = Some (tr, s) ->
  pushed tr = popped tr ++ tasks s /\
  NoDup (pushed tr) /\
  (forall T1 T2, before T1 T2 (pushed tr) -> T2 ∈ popped tr ->
                 before T1 T2 (popped tr)).
Proof.
  intros Hc Hr.
  pose proof (fifo_constructed _ _ _ _ _ _ _ Hc Hr) as Hfifo.
  destruct (trace_inv_run _ _ _ _ _ _ _ Hc Hr) as (_ & [Hnd _] & _).
  split_and!; [done..|].
  intros T1 T2 (l1 & l2 & l3 & Hl) [p1 [p2 Hp]]%list_elem_of_split.
  rewrite Hl in Hfifo, Hnd. rewrite Hp in Hfifo.
  assert ((l1 ++ T1 :: l2) ++ T2 :: l3 = p1 ++ T2 :: (p2 ++ tasks s)) as He.
  { rewrite <- app_assoc in Hfifo. rewrite <- app_assoc. exact Hfifo. }
  assert (NoDup ((l1 ++ T1 :: l2) ++ T2 :: l3)) as Hnd'.
  { by rewrite <- app_assoc. }
  destruct (NoDup_split_inj _ _ _ _ _ Hnd' He) as [<- _].
  exists l1, l2, p2. rewrite Hp. by rewrite <- app_assoc.
Qed.

(** C1, amended.  [join] returns only when the task queue is empty: at
    that moment every job pushed so far has been dequeued, and each of them
    has run to completion or is being executed by a worker. *)
Theorem join_returns_on_empty_queue Policy n m s0 acts tr s a ev s' c :
  thread_pool Policy n m = inr s0 -> run acts s0 = Some (tr, s) ->
  step a s = Some (ev, s') -> EReturn c join_ret ∈ ev ->
  tasks s' = [] /\
  popped (tr ++ ev) = pushed (tr ++ ev) /\
  (forall j, j ∈ pushed (tr ++ ev) ->
     is_Some (future_get j s') \/ exists i, workers s' !! i = Some (WRun j)).
Proof.
  intros Hc Hr Hs Hev.
  pose proof (run_snoc _ _ _ _ _ _ _ Hr Hs) as Hr'.
  assert (tasks s' = []) as Hempty.
  { clear Hr Hr'. destruct a; step_cases Hs;
      repeat first
        [ apply elem_of_nil in Hev
        | apply elem_of_cons in Hev as [Hev|Hev]
        | apply elem_of_app in Hev as [Hev|Hev]
        | apply list_elem_of_fmap in Hev as (? & Hev & _) ];
      simplify_eq; try done;
      try (repeat case_match; simplify_eq; done).
    all: by destruct (tasks s). }
  pose proof (fifo_constructed _ _ _ _ _ _ _ Hc Hr') as Hfifo.
  rewrite Hempty, app_nil_r in Hfifo.
  destruct (trace_inv_run _ _ _ _ _ _ _ Hc Hr') as (_ & _ & Hfl & _).
  split_and!; [done..|].
  intros j Hj. apply Hfl. by rewrite <- Hfifo.
Qed.

(** C3.  Use after stop: once a call of [terminate] has returned, every
    call of [apply], [apply_get], [map], [map_get] and [join] throws the
    "invoked after it was terminated" runtime error and leaves the state of
    the pool (and of everything else) as it was. *)
Theorem use_after_terminate Policy n m s0 acts tr s c0 c (r : request A V) :
  thread_pool Policy n m = inr s0 -> run acts s0 = Some (tr, s) ->
  EReturn c0 terminate_ret ∈ tr ->
  clients s !! c = Some CIdle ->
  r <> Terminate -> r <> Destroy ->
  step (Call c r) s = Some ([EThrow c invoked_after_terminated], s).
Proof.
  intros Hc Hr Hret Hidle Hr1 Hr2.
  destruct (trace_inv_run _ _ _ _ _ _ _ Hc Hr) as (_ & _ & _ & Ht).
  specialize (Ht _ Hret). simpl. unfold call_member. rewrite Hidle. simpl.
  destruct r; try done;
    unfold apply, apply_get, map, map_get, apply_, map_, join, throw;
    by rewrite Ht.
Qed.


Lemma no_crash_run s acts tr s' :
  inv s -> run acts s = Some (tr, s') ->
  (forall w, ECrash w ∉ tr) /\ no_crash s'.
Proof.
  intros Hi Hr.
  enough (inv s' /\ forall w, ECrash w ∉ tr) as [(_ & _ & _ & _ & Hn) Hc]
    by done.
  apply (run_invariant (fun tr s => inv s /\ forall w, ECrash w ∉ tr) s)
    with acts; [| |done].
  - split; [done|]. by intros w ?%elem_of_nil.
  - clear. intros tr s a ev s' [Hi Hc] H. split; [by eapply inv_step|].
    intros w [Hw|Hw]%elem_of_app; [by eapply Hc|].
    by eapply no_crash_step.
Qed.

Lemma run_cons a acts s ev s1 tr s2 :
  step a s = Some (ev, s1) -> run acts s1 = Some (tr, s2) ->
  run (a :: acts) s = Some (ev ++ tr, s2).
Proof. intros Hs Hr. simpl. rewrite Hs. simpl. by rewrite Hr. Qed.

(** A worker that has finished a job takes the next one from the queue. *)
Lemma worker_takes_next s i job q choice :
  workers s !! i = Some WNotify ->
  tasks s = job :: q -> task_mutex s = false -> stop s = false ->
  exists s',
    run [Worker i choice; Worker i choice; Worker i choice;
         Worker i choice; Worker i choice] s = Some ([EPop i job], s') /\
    workers s' !! i = Some (WRun job) /\ tasks s' = q.
Proof.
  intros Hw Ht Hm Hs.
  assert (i < length (workers s)) as Hi by (by eapply lookup_lt_Some).
  assert (forall (s1 : state A V) w, i < length (workers s1) ->
            workers (set_worker i w s1) !! i = Some w) as Hset.
  { intros s1 w H1. simpl. by apply list_lookup_insert_eq. }
  eexists. split_and!.
  - change [EPop i job] with ([] ++ [] ++ [] ++ [] ++ [EPop i job] ++ []).
    eapply run_cons.
    { cbn [step]. unfold worker_func. rewrite Hw. cbn [mbind option_bind]. reflexivity. }
    eapply run_cons.
    { cbn [step]. unfold worker_func. rewrite Hset by done.
      cbn [mbind option_bind]. cbn [task_mutex set_worker set_workers set_clients].
      rewrite Hm. reflexivity. }
    eapply run_cons.
    { cbn [step]. unfold worker_func. rewrite Hset by (simpl; by rewrite length_insert).
      cbn [mbind option_bind]. cbn [tasks stop task_mutex set_worker set_workers set_clients set_mutex].
      rewrite Hs, Ht. cbn [negb andb is_empty]. reflexivity. }
    eapply run_cons.
    { cbn [step]. unfold worker_func. rewrite Hset by (simpl; by rewrite !length_insert).
      cbn [mbind option_bind]. cbn [tasks stop task_mutex set_worker set_workers set_clients set_mutex].
      rewrite Hs. reflexivity. }
    eapply run_cons.
    { cbn [step]. unfold worker_func. rewrite Hset by (simpl; by rewrite !length_insert).
      cbn [mbind option_bind]. cbn [tasks stop task_mutex set_worker set_workers set_clients set_mutex].
      rewrite Ht. reflexivity. }
    reflexivity.
  - simpl. apply list_lookup_insert_eq. by rewrite !length_insert.
  - done.
Qed.
(** C2.  A task body that throws: the worker executing it stores the
    exception in the shared state of the packaged task, where
    [future::get] finds it (when there is a future), and goes on with line
    167 of its loop.  Nothing else changes: the queue, the flag, the mutex,
    the other threads and the shared states of the other tasks are as
    before.  The worker then takes the next task from the queue, and
    neither this worker nor any other ever crashes. *)
Theorem task_exception_contained s i j pt e choice :
  reachable s ->
  workers s !! i = Some (WRun j) ->
  heap s !! j = Some pt ->
  fn pt tt = Exception e ->
  let s' :=
    set_worker i WNotify
      (set_heap (<[j := {| fn := fn pt; shared_state := Some (Exception e) |}]>
                   (heap s)) s) in
  future_get j s = None /\
  step (Worker i choice) s = Some ([ERan i j], s') /\
  future_get j s' = Some (Exception e) /\
  (forall j', j' <> j -> future_get j' s' = future_get j' s) /\
  (forall job q,
     tasks s = job :: q -> task_mutex s = false -> stop s = false ->
     exists s'',
       run [Worker i choice; Worker i choice; Worker i choice;
            Worker i choice; Worker i choice] s'
       = Some ([EPop i job], s'') /\
       workers s'' !! i = Some (WRun job) /\ tasks s'' = q) /\
  (forall acts tr s'', run acts s' = Some (tr, s'') ->
     (forall w, ECrash w ∉ tr) /\
     (forall w, workers s'' !! w <> Some WCrashed)).
Proof.
  intros Hreach Hw Hj He s'.
  pose proof (inv_reachable _ Hreach) as Hinv.
  destruct Hinv as (Hm & Hf & Ho & Ht & Hn).
  destruct (running_invocable _ _ _ Ho Hw) as [f Hj'].
  rewrite Hj in Hj'. injection Hj' as ->. simpl in *.
  assert (step (Worker i choice) s = Some ([ERan i j], s')) as Hstep.
  { simpl. unfold worker_func. rewrite Hw. simpl. unfold invoke.
    rewrite Hj. by rewrite He. }
  assert (i < length (workers s)) as Hi by (by eapply lookup_lt_Some).
  assert (j < length (heap s)) as Hlt by (by eapply lookup_lt_Some).
  split_and!.
  - unfold future_get. by rewrite Hj.
  - done.
  - unfold future_get, s'. simpl. by rewrite list_lookup_insert_eq.
  - intros j' Hne. unfold future_get, s'. simpl.
    by rewrite list_lookup_insert_ne.
  - intros job q Hq Hmx Hst. apply worker_takes_next; try done.
    unfold s'. simpl. by apply list_lookup_insert_eq.
  - intros acts tr s'' Hr.
    assert (inv s') as Hinv'.
    { eapply inv_step; [|exact Hstep]. done. }
    apply (no_crash_run _ _ _ _ Hinv' Hr).
Qed.

(** C7.  [terminate] is idempotent: once a call of it has returned the
    flag is set and stays set whatever happens next, and a further call
    returns at once and leaves the state exactly as it was. *)
Theorem terminate_idempotent Policy n m s0 acts tr s c0 c :
  thread_pool Policy n m = inr s0 -> run acts s0 = Some (tr, s) ->
  EReturn c0 terminate_ret ∈ tr ->
  clients s !! c = Some CIdle ->
  stop s = true /\
  step (Call c Terminate) s = Some ([EReturn c terminate_ret], s) /\
  (forall acts' tr' s', run acts' s = Some (tr', s') -> stop s' = true).
Proof.
  intros Hc Hr Hret Hidle.
  destruct (trace_inv_run _ _ _ _ _ _ _ Hc Hr) as (_ & _ & _ & Ht).
  specialize (Ht _ Hret). split_and!; [done| |].
  - simpl. unfold call_member. rewrite Hidle. simpl. unfold terminate.
    rewrite Ht. simpl. by rewrite set_client_id.
  - intros acts' tr' s' Hr'.
    apply (run_invariant (fun _ s => stop s = true) s Ht) with acts' tr';
      [|done].
    intros. by eapply stop_step.
Qed.

(** On a pool whose flag is set, whoever set it, [terminate] does
    nothing. *)
Lemma terminate_stopped_noop s c :
  stop s = true -> clients s !! c = Some CIdle ->
  step (Call c Terminate) s = Some ([EReturn c terminate_ret], s).
Proof.
  intros Hs Hidle. simpl. unfold call_member. rewrite Hidle. simpl.
  unfold terminate. rewrite Hs. simpl. by rewrite set_client_id.
Qed.

(** The first call, on a pool that is not stopped, sets the flag. *)
Lemma terminate_sets_stop s c :
  stop s = false -> clients s !! c = Some CIdle ->
  step (Call c Terminate) s
  = Some ([], set_client c (CTermNotify KReturn) (set_stop true s)).
Proof.
  intros Hs Hidle. simpl. unfold call_member. rewrite Hidle. simpl.
  unfold terminate. by rewrite Hs.
Qed.

Lemma size_step s a ev s' : step a s = Some (ev, s') -> size s' = size s.
Proof.
  unfold size. intros H. destruct a; step_cases H;
    unfold notify_one, notify_all; repeat case_match;
    by rewrite ?length_insert, ?length_alter, ?length_fmap.
Qed.

(** C9.  The default constructor hands the reported hardware concurrency
    to the counted constructor, so with a report of 0 it throws the same
    [length_error]; the counted constructor with [n >= 1] spawns [n]
    workers, and [size] is [n] from then on. *)
Theorem construction Policy n m :
  1 <= n ->
  (forall hc, thread_pool_default (A:=A) (V:=V) Policy hc m
              = thread_pool Policy hc m) /\
  thread_pool_default (A:=A) (V:=V) Policy 0 m
  = inl (length_error "Number of workers must be positive.") /\
  thread_pool (A:=A) (V:=V) Policy 0 m
  = inl (length_error "Number of workers must be positive.") /\
  (exists s0 : state A V,
     thread_pool Policy n m = inr s0 /\
     workers s0 = replicate n WLock /\
     stop s0 = false /\
     size s0 = n /\
     forall acts tr s, run acts s0 = Some (tr, s) -> size s = n).
Proof.
  intros Hn. split_and!; [done..|].
  unfold thread_pool. destruct (Nat.eqb_spec n 0); [lia|].
  eexists. split_and!; [done..| |].
  - unfold size. simpl. by rewrite length_replicate.
  - intros acts tr s Hr.
    apply (run_invariant (fun _ s => size s = n) _)
      with (acts:=acts) (tr:=tr) (s:=s) in Hr; [done| |].
    + unfold size. simpl. by rewrite length_replicate.
    + intros ? ? ? ? ? <- Hs. by eapply size_step.
Qed.

(** ** [map_get]: which callable each future belongs to *)

Lemma bound_lvalue (func : function_object A V) xs :
  bound lvalue func xs = bind func <$> xs.
Proof. induction xs as [|x xs IH]; [done|]. simpl. by rewrite IH. Qed.

Lemma bound_rvalue_moved (func : function_object A V) xs :
  bound rvalue (moved_from func) xs = bind (moved_from func) <$> xs.
Proof.
  induction xs as [|x xs IH]; [done|].
  change (bound rvalue (moved_from func) (x :: xs))
    with (bind (moved_from func) x :: bound rvalue (moved_from func) xs).
  by rewrite IH.
Qed.

Lemma bound_rvalue (func : function_object A V) x xs :
  bound rvalue func (x :: xs)
  = bind func x :: (bind (moved_from func) <$> xs).
Proof. by rewrite <- bound_rvalue_moved. Qed.

(** [map_get] returns one future per element of the range, in the order
    of the range; the [i]-th future belongs to the [i]-th callable bound by
    the loop and, whenever ready, holds what that callable returns (or, for
    a job discarded with the queue by the destructor, [broken_promise]). *)
Lemma map_get_futures cat (func : function_object A V) xs s c choice :
  clients s !! c = Some (CMapLock cat func xs true) ->
  task_mutex s = false ->
  exists futs s1,
    step (Client c choice) s
    = Some ((EPush <$> futs) ++ [EReturn c (map_get_ret futs)], s1) /\
    length futs = length xs /\
    forall i (f : callable V), bound cat func xs !! i = Some f ->
      exists fut, futs !! i = Some fut /\
        forall acts tr s2 o, run acts s1 = Some (tr, s2) ->
          future_get fut s2 = Some o -> resolved fut (f tt) tr o.
Proof.
  intros Hc Hm. eexists (seq (length (heap s)) (length xs)), _. split_and!.
  - simpl. unfold client_step. rewrite Hc. simpl. rewrite Hm.
    rewrite map_loop_spec. done.
  - by rewrite length_seq.
  - intros i f Hi.
    assert (i < length xs) as Hlt.
    { rewrite <- (length_bound cat func xs). by eapply lookup_lt_Some. }
    exists (length (heap s) + i). split; [by apply lookup_seq_lt|].
    intros acts tr s2 o Hr Ho.
    eapply future_get_run; [exact Hr| |exact Ho]. simpl.
    rewrite lookup_app_r by lia.
    replace (length (heap s) + i - length (heap s)) with i by lia.
    by rewrite list_lookup_fmap, Hi.
Qed.

(** With the function object passed as an lvalue every job gets a copy of
    it, and the [i]-th future holds [func] applied to the [i]-th element. *)
Lemma map_get_lvalue (func : function_object A V) xs s c choice :
  clients s !! c = Some (CMapLock lvalue func xs true) ->
  task_mutex s = false ->
  exists futs s1,
    step (Client c choice) s
    = Some ((EPush <$> futs) ++ [EReturn c (map_get_ret futs)], s1) /\
    length futs = length xs /\
    forall i x, xs !! i = Some x ->
      exists fut, futs !! i = Some fut /\
        forall acts tr s2 o, run acts s1 = Some (tr, s2) ->
          future_get fut s2 = Some o -> resolved fut (call func x) tr o.
Proof.
  intros Hc Hm.
  destruct (map_get_futures _ _ _ _ _ choice Hc Hm)
    as (futs & s1 & Hs & Hl & Hf).
  exists futs, s1. split_and!; [done..|].
  intros i x Hx. apply (Hf i (bind func x)).
  by rewrite bound_lvalue, list_lookup_fmap, Hx.
Qed.

(** A function object that a move leaves as it was (a function pointer, a
    closure without captures) can be passed either way. *)
Lemma bound_stateless cat (func : function_object A V) xs :
  (forall x, call_moved_from func x = call func x) ->
  forall i x, xs !! i = Some x ->
    exists f : callable V, bound cat func xs !! i = Some f /\ f tt = call func x.
Proof.
  intros Hst. destruct cat.
  - intros i x Hx. exists (bind func x). split; [|done].
    by rewrite bound_lvalue, list_lookup_fmap, Hx.
  - destruct xs as [|x0 xs]; [by intros i x ?|].
    rewrite bound_rvalue. intros [|i] x Hx; simplify_eq/=.
    + by exists (bind func x).
    + exists (bind (moved_from func) x). split; [|apply Hst].
      by rewrite list_lookup_fmap, Hx.
Qed.

Lemma map_get_stateless cat (func : function_object A V) xs s c choice :
  (forall x, call_moved_from func x = call func x) ->
  clients s !! c = Some (CMapLock cat func xs true) ->
  task_mutex s = false ->
  exists futs s1,
    step (Client c choice) s
    = Some ((EPush <$> futs) ++ [EReturn c (map_get_ret futs)], s1) /\
    length futs = length xs /\
    forall i x, xs !! i = Some x ->
      exists fut, futs !! i = Some fut /\
        forall acts tr s2 o, run acts s1 = Some (tr, s2) ->
          future_get fut s2 = Some o -> resolved fut (call func x) tr o.
Proof.
  intros Hst Hc Hm.
  destruct (map_get_futures _ _ _ _ _ choice Hc Hm)
    as (futs & s1 & Hs & Hl & Hf).
  exists futs, s1. split_and!; [done..|].
  intros i x Hx.
  destruct (bound_stateless cat func xs Hst i x Hx) as (f & Hb & Hfx).
  destruct (Hf i f Hb) as (fut & Hfut & Hget).
  exists fut. split; [done|]. intros acts tr s2 o Hr Ho.
  rewrite <- Hfx. by eapply Hget.
Qed.

(** Passed as an rvalue, the function object is moved into the first job;
    every later job is bound to what the move left behind. *)
Lemma map_get_rvalue (func : function_object A V) x xs s c choice :
  clients s !! c = Some (CMapLock rvalue func (x :: xs) true) ->
  task_mutex s = false ->
  exists futs s1,
    step (Client c choice) s
    = Some ((EPush <$> futs) ++ [EReturn c (map_get_ret futs)], s1) /\
    forall i y, xs !! i = Some y ->
      exists fut, futs !! S i = Some fut /\
        forall acts tr s2 o, run acts s1 = Some (tr, s2) ->
          future_get fut s2 = Some o ->
          resolved fut (call_moved_from func y) tr o.
Proof.
  intros Hc Hm.
  destruct (map_get_futures _ _ _ _ _ choice Hc Hm)
    as (futs & s1 & Hs & Hl & Hf).
  exists futs, s1. split; [done|].
  intros i y Hy. apply (Hf (S i) (bind (moved_from func) y)).
  rewrite bound_rvalue. simpl. by rewrite list_lookup_fmap, Hy.
Qed.

(** ** The destructor *)

(** Line 275: with the JOIN policy the destructor starts with [join], with
    the TERMINATE policy it goes to [terminate] at once.  A [join] called
    by the destructor that finds the queue empty continues with
    [terminate] on line 276. *)
Lemma destroy_policy s c :
  clients s !! c = Some CIdle ->
  step (Call c Destroy) s
  = if policy s then join KDestroy c s else terminate KDestroy c s.
Proof.
  intros Hidle. simpl. unfold call_member. by rewrite Hidle.
Qed.

Lemma destroy_join_returned s c choice :
  clients s !! c = Some (CJoinLoop KDestroy) -> tasks s = [] ->
  step (Client c choice) s
  = Some ([EReturn c join_ret], set_client c CTerminate (set_mutex false s)).
Proof.
  intros Hc Ht. simpl. unfold client_step. rewrite Hc. simpl. by rewrite Ht.
Qed.

(** With the JOIN policy, destroying a pool whose flag is set ends in
    [std::terminate]: [join] throws inside the destructor. *)
Lemma destroy_stopped_aborts s c :
  policy s = JOIN -> stop s = true -> clients s !! c = Some CIdle ->
  step (Call c Destroy) s
  = Some ([EThrow c invoked_after_terminated; EAbort c],
          set_client c CAborted s).
Proof.
  intros Hp Hs Hidle. rewrite destroy_policy by done. rewrite Hp.
  unfold join. by rewrite Hs.
Qed.

(** With the TERMINATE policy [terminate] returns at once and the members
    are destroyed: once the workers have exited and no other thread is
    inside a member function, the jobs still queued are abandoned. *)
Lemma destroy_stopped_returns s c :
  policy s = TERMINATE -> stop s = true -> clients s !! c = Some CIdle ->
  forallb exited (workers s) = true ->
  forallb outside (clients s) = true ->
  step (Call c Destroy) s
  = Some ([EReturn c terminate_ret; EReturn c destroy_ret],
          set_heap (destroy_tasks (tasks s) (heap s)) s).
Proof.
  intros Hp Hs Hidle Hw Hc. rewrite destroy_policy by done. rewrite Hp.
  unfold terminate, terminate_return, destroy_members. rewrite Hs.
  rewrite list_insert_id by done. rewrite Hw, Hc. simpl.
  unfold set_client. by rewrite list_insert_id.
Qed.

End invariants.

(** ** Executions of small programs *)

Example join_before_completion :
  run (submit_then_join ++ [Client 0 0]) (pool1 TERMINATE)
  = Some ([EPush 0; EReturn 0 apply_ret; EPop 0 0; EReturn 0 join_ret],
          {| policy := TERMINATE; workers := [WRun 0]; tasks := [];
             task_mutex := false; stop := false;
             heap := [{| fn := seven; shared_state := None |}];
             clients := [CIdle] |}).
Proof. vm_compute. reflexivity. Qed.

(** C1 fails as stated: in the execution above [join] returns while the
    only task submitted is still being executed. *)
Lemma join_returns_while_task_runs : ~ @join_waits_for_completion nat nat.
Proof.
  intros H.
  assert (run submit_then_join (pool1 TERMINATE)
          = Some (trace submit_then_join (pool1 TERMINATE),
                  final submit_then_join (pool1 TERMINATE))) as Hr
    by (vm_compute; reflexivity).
  assert (step (Client 0 0) (final submit_then_join (pool1 TERMINATE))
          = Some ([EReturn 0 join_ret],
                  final (submit_then_join ++ [Client 0 0]) (pool1 TERMINATE)))
    as Hs by (vm_compute; reflexivity).
  destruct (H TERMINATE 1 1 _ _ _ _ _ _ _ 0 eq_refl Hr Hs
              (list_elem_of_here _ _) 0) as [o Ho].
  - vm_compute. left.
  - vm_compute in Ho. discriminate.
Qed.

Lemma join_returns_on_empty_queue_witness :
  tasks (final (submit_then_join ++ [Client 0 0]) (pool1 TERMINATE)) = [] /\
  popped (trace submit_then_join (pool1 TERMINATE) ++ [EReturn 0 join_ret])
  = pushed (trace submit_then_join (pool1 TERMINATE) ++ [EReturn 0 join_ret]) /\
  (forall j,
     j ∈ pushed (trace submit_then_join (pool1 TERMINATE)
                 ++ [EReturn 0 join_ret]) ->
     is_Some (future_get j
                (final (submit_then_join ++ [Client 0 0]) (pool1 TERMINATE)))
     \/ exists i,
         workers (final (submit_then_join ++ [Client 0 0]) (pool1 TERMINATE))
           !! i = Some (WRun j)).
Proof.
  assert (run submit_then_join (pool1 TERMINATE)
          = Some (trace submit_then_join (pool1 TERMINATE),
                  final submit_then_join (pool1 TERMINATE))) as Hr
    by (vm_compute; reflexivity).
  assert (step (Client 0 0) (final submit_then_join (pool1 TERMINATE))
          = Some ([EReturn 0 join_ret],
                  final (submit_then_join ++ [Client 0 0]) (pool1 TERMINATE)))
    as Hs by (vm_compute; reflexivity).
  exact (join_returns_on_empty_queue TERMINATE 1 1 _ _ _ _ _ _ _ 0
           eq_refl Hr Hs (list_elem_of_here _ _)).
Defined.

Lemma submit_boom_run :
  run submit_boom (pool1 TERMINATE)
  = Some (trace submit_boom (pool1 TERMINATE),
          final submit_boom (pool1 TERMINATE)).
Proof. vm_compute. reflexivity. Qed.

Lemma task_exception_contained_witness :
  future_get 0 (final submit_boom (pool1 TERMINATE)) = None /\
  future_get 0 (final (submit_boom ++ [Worker 0 0]) (pool1 TERMINATE))
  = Some (Exception (exception "boom")) /\
  workers (final (submit_boom ++ [Worker 0 0; Worker 0 0]) (pool1 TERMINATE))
  = [WLock].
Proof.
  assert (reachable (final submit_boom (pool1 TERMINATE))) as Hreach.
  { exists TERMINATE, 1, 1, (pool1 TERMINATE), submit_boom,
      (trace submit_boom (pool1 TERMINATE)).
    split; [reflexivity | vm_compute; reflexivity]. }
  assert (workers (final submit_boom (pool1 TERMINATE)) !! 0 = Some (WRun 0))
    as Hw by (vm_compute; reflexivity).
  assert (heap (final submit_boom (pool1 TERMINATE)) !! 0
          = Some {| fn := boom; shared_state := None |})
    as Hh by (vm_compute; reflexivity).
  assert (fn {| fn := boom; shared_state := None |} tt
          = Exception (exception "boom")) as He by reflexivity.
  destruct (task_exception_contained _ 0 0 _ _ 0 Hreach Hw Hh He)
    as (Hnone & Hstep & Hget & _).
  split; [exact Hnone|]. split.
  - rewrite <- Hget. vm_compute. reflexivity.
  - vm_compute. reflexivity.
Defined.

Example terminate_completes Policy :
  run terminated (pool1 Policy)
  = Some ([EReturn 0 terminate_ret],
          {| policy := Policy; workers := [WExited]; tasks := [];
             task_mutex := false; stop := true; heap := [];
             clients := [CIdle] |}).
Proof. destruct Policy; vm_compute; reflexivity. Qed.

Lemma terminated_run Policy :
  run terminated (pool1 Policy)
  = Some (trace terminated (pool1 Policy), final terminated (pool1 Policy)).
Proof. destruct Policy; vm_compute; reflexivity. Qed.

Lemma use_after_terminate_witness :
  step (Call 0 (MapGet lvalue {| call := Value; call_moved_from := Value |}
                  [1; 2; 3]))
       (final terminated (pool1 TERMINATE))
  = Some ([EThrow 0 invoked_after_terminated],
          final terminated (pool1 TERMINATE)).
Proof.
  assert (EReturn 0 terminate_ret ∈ trace terminated (pool1 TERMINATE))
    as Hin by (vm_compute; left).
  assert (clients (final terminated (pool1 TERMINATE)) !! 0 = Some CIdle)
    as Hidle by (vm_compute; reflexivity).
  apply (use_after_terminate TERMINATE 1 1 _ _ _ _ 0 0 _
           eq_refl (terminated_run TERMINATE) Hin Hidle); discriminate.
Defined.

Lemma terminate_idempotent_witness :
  stop (final terminated (pool1 JOIN)) = true /\
  step (Call 0 Terminate) (final terminated (pool1 JOIN))
  = Some ([EReturn 0 terminate_ret], final terminated (pool1 JOIN)) /\
  (forall acts' tr' s',
     run acts' (final terminated (pool1 JOIN)) = Some (tr', s') ->
     stop s' = true).
Proof.
  assert (EReturn 0 terminate_ret ∈ trace terminated (pool1 JOIN))
    as Hin by (vm_compute; left).
  assert (clients (final terminated (pool1 JOIN)) !! 0 = Some CIdle)
    as Hidle by (vm_compute; reflexivity).
  exact (terminate_idempotent JOIN 1 1 _ _ _ _ 0 0
           eq_refl (terminated_run JOIN) Hin Hidle).
Defined.

(** C6, on the code: a pool with the JOIN policy that was terminated by
    hand and is then destroyed.  The destructor calls [join], which throws
    because the flag is set; the exception leaves the destructor and
    [terminate] on line 276 is not reached. *)
Theorem destroy_after_terminate_aborts :
  run (terminated ++ [Call 0 Destroy]) (pool1 JOIN)
  = Some ([EReturn 0 terminate_ret;
           EThrow 0 invoked_after_terminated; EAbort 0],
          {| policy := JOIN; workers := [WExited]; tasks := [];
             task_mutex := false; stop := true; heap := [];
             clients := [CAborted] |}).
Proof. vm_compute. reflexivity. Qed.

Example test_apply_get :
  run ([Call 0 (ApplyGet (fun _ => Value (add (7, 11)))); Client 0 0]
       ++ dequeue ++ [Worker 0 0])
      (pool1 JOIN)
  = Some ([EPush 0; EReturn 0 (apply_get_ret 0); EPop 0 0; ERan 0 0],
          {| policy := JOIN; workers := [WNotify]; tasks := [];
             task_mutex := false; stop := false;
             heap := [{| fn := fun _ => Value 18;
                         shared_state := Some (Value 18) |}];
             clients := [CIdle] |}).
Proof. vm_compute. reflexivity. Qed.

Example completion_out_of_order :
  trace two_tasks pool2
  = [EPush 0; EReturn 0 apply_ret; EPush 1; EReturn 0 apply_ret;
     EPop 0 0; EPop 1 1; ERan 1 1; ERan 0 0] /\
  popped (trace two_tasks pool2) = [0; 1] /\
  completed (trace two_tasks pool2) = [1; 0].
Proof. vm_compute. done. Qed.

Lemma fifo_dispatch_witness :
  pushed (trace two_tasks pool2)
  = popped (trace two_tasks pool2) ++ tasks (final two_tasks pool2) /\
  NoDup (pushed (trace two_tasks pool2)) /\
  (forall T1 T2, before T1 T2 (pushed (trace two_tasks pool2)) ->
                 T2 ∈ popped (trace two_tasks pool2) ->
                 before T1 T2 (popped (trace two_tasks pool2))).
Proof.
  assert (run two_tasks pool2
          = Some (trace two_tasks pool2, final two_tasks pool2)) as Hr
    by (vm_compute; reflexivity).
  exact (fifo_dispatch TERMINATE 2 1 _ _ _ _ eq_refl Hr).
Defined.

Lemma construction_witness :
  (forall hc, thread_pool_default (A:=nat) (V:=nat) JOIN hc 1
              = thread_pool JOIN hc 1) /\
  thread_pool_default (A:=nat) (V:=nat) JOIN 0 1
  = inl (length_error "Number of workers must be positive.") /\
  thread_pool (A:=nat) (V:=nat) JOIN 0 1
  = inl (length_error "Number of workers must be positive.") /\
  (exists s0 : state nat nat,
     thread_pool JOIN 3 1 = inr s0 /\
     workers s0 = replicate 3 WLock /\
     stop s0 = false /\
     size s0 = 3 /\
     forall acts tr s, run acts s0 = Some (tr, s) -> size s = 3).
Proof.
  assert (1 <= 3) as Hn by lia.
  exact (construction JOIN 3 1 Hn).
Defined.

(** C4, on the code: [pool.map_get(f, xs.begin(), xs.end())] with
    [xs = {10, 20}] and [f] a temporary closure that captured a vector of
    three elements by value and returns its size plus the argument.  The
    first pass of the loop moves the closure into the first job; the second
    job is bound to the closure that was moved from, whose vector is
    empty.  The second future holds 20 where [f 20] is 23. *)
Theorem map_get_rvalue_evaluation :
  trace map_get_temporary (pool1 TERMINATE)
  = [EPush 0; EPush 1; EReturn 0 (map_get_ret [0; 1]);
     EPop 0 0; ERan 0 0; EPop 0 1; ERan 0 1] /\
  future_get 0 (final map_get_temporary (pool1 TERMINATE)) = Some (Value 13) /\
  future_get 1 (final map_get_temporary (pool1 TERMINATE)) = Some (Value 20) /\
  call size_plus 10 = Value 13 /\
  call size_plus 20 = Value 23.
Proof. vm_compute. repeat split. Qed.

(** [test_map_get]: the same call with the function object passed as an
    lvalue gives every future its value. *)
Example map_get_lvalue_evaluation :
  let acts := [Call 0 (MapGet lvalue size_plus [10; 20]); Client 0 0]
              ++ dequeue ++ [Worker 0 0; Worker 0 0]
              ++ dequeue ++ [Worker 0 0] in
  future_get 0 (final acts (pool1 TERMINATE)) = Some (Value 13) /\
  future_get 1 (final acts (pool1 TERMINATE)) = Some (Value 23).
Proof. vm_compute. repeat split. Qed.


End PoolProofs.

Module FrameworkProofs.
Import Framework HarnessPrograms.

Section map.
Context {T : Type}.
Implicit Types (m : list (string * T)) (name other : string).

Lemma find_insert_sorted_eq name (v : T) m :
  find name m = None -> find name (insert_sorted name v m) = Some v.
Proof.
  induction m as [|[k w] m IH]; simpl.
  - by rewrite String.eqb_refl.
  - destruct (String.eqb_spec name k) as [->|Hne]; [done|]. intros Hf.
    destruct (String.compare name k) eqn:Hc; simpl.
    + by rewrite String.eqb_refl.
    + by rewrite String.eqb_refl.
    + destruct (String.eqb_spec name k); [done|]. by apply IH.
Qed.

Lemma find_insert_sorted_ne name other (v : T) m :
  other <> name -> find other (insert_sorted name v m) = find other m.
Proof.
  intros Hne. induction m as [|[k w] m IH]; simpl.
  - by destruct (String.eqb_spec other name).
  - destruct (String.compare name k) eqn:Hc; simpl.
    + by destruct (String.eqb_spec other name).
    + by destruct (String.eqb_spec other name).
    + by rewrite IH.
Qed.

Lemma find_emplace_present name (v w : T) m :
  find name m = Some w -> map_emplace name v m = m.
Proof. unfold map_emplace. by intros ->. Qed.

Lemma find_emplace_absent name (v : T) m :
  find name m = None -> find name (map_emplace name v m) = Some v.
Proof.
  unfold map_emplace. intros H. rewrite H. by apply find_insert_sorted_eq.
Qed.

Lemma find_emplace_ne name other (v : T) m :
  other <> name -> find other (map_emplace name v m) = find other m.
Proof.
  unfold map_emplace. intros H. destruct (find name m); [done|].
  by apply find_insert_sorted_ne.
Qed.

Lemma find_erase_eq name m : find name (map_erase name m) = None.
Proof.
  induction m as [|[k w] m IH]; simpl; [done|].
  destruct (String.eqb_spec name k) as [->|Hne]; [done|]. simpl.
  by destruct (String.eqb_spec name k).
Qed.

Lemma find_erase_ne name other m :
  other <> name -> find other (map_erase name m) = find other m.
Proof.
  intros Hne. induction m as [|[k w] m IH]; simpl; [done|].
  destruct (String.eqb_spec name k) as [->|Hk]; simpl.
  - by destruct (String.eqb_spec other k).
  - by rewrite IH.
Qed.

Lemma find_fst_elem name v m : find name m = Some v -> name ∈ fst <$> m.
Proof.
  induction m as [|[k w] m IH]; simpl; [done|].
  destruct (String.eqb_spec name k) as [->|Hk].
  - intros _. left.
  - intros H. right. by apply IH.
Qed.

Lemma elem_fst_find name m : name ∈ fst <$> m -> is_Some (find name m).
Proof.
  induction m as [|[k w] m IH]; simpl.
  - by intros ?%elem_of_nil.
  - destruct (String.eqb_spec name k) as [->|Hk]; [eauto|].
    intros [?|?]%elem_of_cons; [done | by apply IH].
Qed.

End map.

(** [run] of a registered test that has not been executed. *)
Lemma run_fresh name f fw :
  find name (tests fw) = Some f -> executed name fw = false ->
  run name fw = inr (record name (verdict (f tt)) fw).
Proof.
  intros Hf He. unfold run, contains. rewrite Hf, He. simpl.
  by destruct (f tt).
Qed.

(** [run] never touches [tests], nor the result of another name, nor a
    result that is there already. *)
Lemma run_spec name fw :
  is_Some (find name (tests fw)) ->
  exists fw', run name fw = inr fw' /\ tests fw' = tests fw /\
    (forall other, other <> name ->
       find other (results fw') = find other (results fw)) /\
    (forall r, find name (results fw) = Some r ->
       find name (results fw') = Some r) /\
    (forall f, find name (tests fw) = Some f ->
       find name (results fw) = None ->
       find name (results fw') = Some (verdict (f tt))).
Proof.
  intros [f Hf]. unfold run, contains, executed. rewrite Hf. simpl.
  destruct (find name (results fw)) as [r|] eqn:Hr.
  - exists fw. by rewrite Hr.
  - exists (record name (verdict (f tt)) fw). split_and!.
    + by destruct (f tt).
    + done.
    + intros other Hne. simpl. by apply find_emplace_ne.
    + done.
    + intros f' ? _. simplify_eq. simpl. by apply find_emplace_absent.
Qed.

Lemma run_names_spec names fw :
  (forall name, name ∈ names -> is_Some (find name (tests fw))) ->
  exists fw', run_names names fw = inr fw' /\ tests fw' = tests fw /\
    (forall name r, find name (results fw) = Some r ->
       find name (results fw') = Some r) /\
    (forall name f, name ∈ names -> find name (tests fw) = Some f ->
       find name (results fw) = None ->
       find name (results fw') = Some (verdict (f tt))) /\
    (forall name, name ∉ names ->
       find name (results fw') = find name (results fw)).
Proof.
  revert fw. induction names as [|n names IH]; intros fw Hreg; simpl.
  - exists fw. split_and!; try done. by intros ? ? ?%elem_of_nil.
  - destruct (run_spec n fw) as (fw1 & -> & Ht1 & Ho1 & Hk1 & Hn1).
    { apply Hreg. left. }
    destruct (IH fw1) as (fw2 & Hr2 & Ht2 & Hk2 & Hn2 & Ho2).
    { intros name Hin. rewrite Ht1. apply Hreg. by right. }
    exists fw2. split_and!; [done|congruence| | |].
    + intros name r Hr. apply Hk2.
      destruct (decide (name = n)) as [->|Hne]; [by apply Hk1|].
      by rewrite Ho1.
    + intros name f Hin Hf Hr.
      destruct (decide (name = n)) as [->|Hne].
      * apply Hk2. by apply Hn1.
      * apply elem_of_cons in Hin as [?|Hin]; [done|].
        apply Hn2; [done|congruence|]. by rewrite Ho1.
    + intros name Hnin. apply not_elem_of_cons in Hnin as [Hne Hnin].
      rewrite Ho2 by done. by apply Ho1.
Qed.

(** C10.  [emplace] on a name that is registered already: the registered
    callable stays (the new one is not stored), the result recorded for the
    name is erased and the results of the other names are kept; so the next
    [run] of the name, and the next [run_all], execute the old callable
    again and record its verdict. *)
Theorem emplace_registered name f_old f_new fw :
  find name (tests fw) = Some f_old ->
  tests (emplace name f_new fw) = tests fw /\
  find name (tests (emplace name f_new fw)) = Some f_old /\
  executed name (emplace name f_new fw) = false /\
  (forall other, other <> name ->
     find other (results (emplace name f_new fw)) = find other (results fw)) /\
  run name (emplace name f_new fw)
  = inr (record name (verdict (f_old tt)) (emplace name f_new fw)) /\
  (exists fw', run_all (emplace name f_new fw) = inr fw' /\
     tests fw' = tests fw /\
     find name (results fw') = Some (verdict (f_old tt))).
Proof.
  intros Hf.
  assert (tests (emplace name f_new fw) = tests fw) as Ht.
  { simpl. by eapply find_emplace_present. }
  assert (executed name (emplace name f_new fw) = false) as He.
  { unfold executed. simpl. by rewrite find_erase_eq. }
  split_and!.
  - done.
  - by rewrite Ht.
  - done.
  - intros other Hne. simpl. by apply find_erase_ne.
  - apply run_fresh; [by rewrite Ht | done].
  - destruct (run_names_spec (fst <$> tests (emplace name f_new fw))
                (emplace name f_new fw)) as (fw' & Hr & Ht' & _ & Hn & _).
    { intros n Hin. by apply elem_fst_find. }
    exists fw'. split_and!; [done | congruence |].
    apply Hn.
    + rewrite Ht. by eapply find_fst_elem.
    + by rewrite Ht.
    + simpl. apply find_erase_eq.
Qed.

Example registered_in_order :
  fst <$> tests registered = ["apply"; "apply_get"; "map"; "map_get"] /\
  results after_run
  = [("apply", None); ("apply_get", None);
     ("map", Some "Default assert_leq message."); ("map_get", None)].
Proof. vm_compute. done. Qed.

Lemma emplace_registered_witness :
  tests (emplace "map" passing after_run) = tests after_run /\
  find "map" (tests (emplace "map" passing after_run)) = Some failing /\
  executed "map" (emplace "map" passing after_run) = false /\
  (forall other, other <> "map" ->
     find other (results (emplace "map" passing after_run))
     = find other (results after_run)) /\
  run "map" (emplace "map" passing after_run)
  = inr (record "map" (verdict (failing tt)) (emplace "map" passing after_run)) /\
  (exists fw', run_all (emplace "map" passing after_run) = inr fw' /\
     tests fw' = tests after_run /\
     find "map" (results fw') = Some (verdict (failing tt))).
Proof.
  assert (find "map" (tests after_run) = Some failing) as Hf
    by (vm_compute; reflexivity).
  exact (emplace_registered "map" failing passing after_run Hf).
Defined.

End FrameworkProofs.

(** * Further properties of the pool *)
Module PoolExtra.
Import Pool PoolInv PoolPrograms PoolMore PoolScenarios PoolProofs.

Ltac lookup_split H :=
  match type of H with
  | <[?i := _]> ?l !! ?i0 = Some _ =>
      destruct (decide (i0 = i)) as [->|?];
      [ rewrite list_lookup_insert_eq in H by (eapply lookup_lt_Some; eauto)
      | rewrite list_lookup_insert_ne in H by done ]
  | notify_one _ _ _ _ !! _ = Some _ =>
      let Heq := fresh "Heq" in
      apply notify_one_lookup in H; destruct H as (? & H & [Heq|Heq]);
      try subst
  | notify_all _ _ !! _ = Some _ =>
      let Heq := fresh "Heq" in
      apply notify_all_lookup in H; destruct H as (? & H & Heq);
      try subst
  end.

Ltac in_events H :=
  repeat first
    [ apply elem_of_nil in H
    | apply elem_of_cons in H as [H|H]
    | apply elem_of_app in H as [H|H]
    | apply list_elem_of_fmap in H as (? & H & _) ].

Section extra.
Context {A V : Type}.
Implicit Types (s : state A V) (a : action A V) (tr ev : list event).
Implicit Types (pt : packaged_task V).

(** X1.  Mutual exclusion: in every reachable state [task_mutex] is locked
    exactly when one thread is inside a critical section, and no two
    threads, workers or clients, are inside one at the same time. *)
Theorem mutual_exclusion s :
  reachable s ->
  holders s = (if task_mutex s then 1 else 0) /\
  (forall i i' w w', workers s !! i = Some w -> workers s !! i' = Some w' ->
     wholds w = true -> wholds w' = true -> i = i') /\
  (forall c c' st st', clients s !! c = Some st -> clients s !! c' = Some st' ->
     cholds st = true -> cholds st' = true -> c = c') /\
  (forall i c w st, workers s !! i = Some w -> clients s !! c = Some st ->
     wholds w = true -> cholds st = true -> False) /\
  (forall i w, workers s !! i = Some w -> wholds w = true ->
     task_mutex s = true) /\
  (forall c st, clients s !! c = Some st -> cholds st = true ->
     task_mutex s = true).
Proof.
  intros Hr. destruct (inv_reachable _ Hr) as (Hm & _).
  unfold mutex_inv, holders in Hm.
  assert (count wholds (workers s) + count cholds (clients s) <= 1) as Hle
    by (destruct (task_mutex s); lia).
  split_and!.
  - done.
  - intros i i' w w' Hw Hw' Hh Hh'. destruct (decide (i = i')); [done|].
    pose proof (count_two wholds _ _ _ _ _ n Hw Hw' Hh Hh'). lia.
  - intros c c' st st' Hc Hc' Hh Hh'. destruct (decide (c = c')); [done|].
    pose proof (count_two cholds _ _ _ _ _ n Hc Hc' Hh Hh'). lia.
  - intros i c w st Hw Hc Hh Hh'.
    pose proof (count_pos wholds _ _ _ Hw Hh).
    pose proof (count_pos cholds _ _ _ Hc Hh'). lia.
  - intros i w Hw Hh. pose proof (count_pos wholds _ _ _ Hw Hh).
    destruct (task_mutex s); [done|lia].
  - intros c st Hc Hh. pose proof (count_pos cholds _ _ _ Hc Hh).
    destruct (task_mutex s); [done|lia].
Qed.

(** X2.  No undefined behaviour in the workers: in every execution of a
    constructed pool no worker crashes; a worker about to take the front of
    the queue finds the queue non-empty, and a job a worker is about to
    invoke exists and has not been invoked before. *)
Theorem workers_never_crash Policy n m (s0 : state A V) acts tr s :
  thread_pool Policy n m = inr s0 -> run acts s0 = Some (tr, s) ->
  (forall w, ECrash w ∉ tr) /\
  (forall w, workers s !! w <> Some WCrashed) /\
  (forall w, workers s !! w = Some WPop -> tasks s <> []) /\
  (forall w j, workers s !! w = Some (WRun j) ->
     j < length (heap s) /\ future_get j s = None).
Proof.
  intros Hc Hr.
  pose proof (inv_thread_pool _ _ _ _ Hc) as Hi0.
  destruct (no_crash_run _ _ _ _ Hi0 Hr) as [Hev Hn].
  destruct (inv_run _ _ _ _ Hi0 Hr) as (_ & Hf & Ho & _).
  split_and!; [done..| |].
  - intros w Hw. apply (Hf _ _ Hw).
  - intros w j Hw. destruct (running_invocable _ _ _ Ho Hw) as [f Hj].
    split; [by eapply lookup_lt_Some|]. unfold future_get. by rewrite Hj.
Qed.

(** What the events of one step say about the states around it. *)
Lemma completed_step s a ev s' j :
  step a s = Some (ev, s') -> j ∈ completed ev ->
  completed ev = [j] /\ future_get j s = None /\
  is_Some (future_get j s') /\ exists i, workers s !! i = Some (WRun j).
Proof.
  intros H Hj. destruct a; step_cases H;
    rewrite ?completed_app, ?completed_EPush in Hj; simpl in Hj;
    in_events Hj; try done.
  subst. unfold future_get. simpl.
  match goal with Hh : heap s !! _ = Some _ |- _ => rewrite Hh end.
  rewrite list_lookup_insert_eq by (by eapply lookup_lt_Some). simpl.
  split_and!; eauto.
Qed.

Lemma popped_step s a ev s' j :
  step a s = Some (ev, s') -> j ∈ popped ev ->
  exists i, workers s' !! i = Some (WRun j).
Proof.
  intros H Hj. destruct a; step_cases H;
    rewrite ?popped_app, ?popped_EPush in Hj; simpl in Hj;
    in_events Hj; try done.
  subst. eexists. by apply list_lookup_insert_eq, lookup_lt_Some with WPop.
Qed.

Lemma running_origin s a ev s' i j :
  step a s = Some (ev, s') -> workers s' !! i = Some (WRun j) ->
  workers s !! i = Some (WRun j) \/ j ∈ popped ev.
Proof.
  intros H Hw. destruct a; step_cases H; try (by left);
    try (lookup_split Hw; simplify_eq; try (by left);
         try (right; simpl; by left);
         match goal with x : wstate |- _ => destruct x; simplify_eq/= end;
         by left).
Qed.

Lemma exec_inv_step tr s a ev s' :
  exec_inv tr s -> step a s = Some (ev, s') -> exec_inv (tr ++ ev) s'.
Proof.
  intros (Hnd & Hc & Hw) H. unfold exec_inv.
  rewrite completed_app, popped_app. split_and!.
  - apply NoDup_app. split_and!; [done| |].
    + intros j Hj Hj'. destruct (Hc _ Hj) as [_ [o Ho]].
      destruct (completed_step _ _ _ _ _ H Hj') as (_ & Hnone & _). congruence.
    + destruct (completed ev) as [|j l] eqn:He; [apply NoDup_nil_2|].
      destruct (completed_step _ _ _ _ j H) as (He' & _).
      { rewrite He. left. }
      rewrite <- He, He'. apply NoDup_singleton.
  - intros j [Hj|Hj]%elem_of_app.
    + destruct (Hc _ Hj) as [Hp Hs]. split.
      * apply elem_of_app. by left.
      * by eapply future_ready_step.
    + destruct (completed_step _ _ _ _ _ H Hj) as (_ & _ & Hs & i & Hi).
      split; [|done]. apply elem_of_app. left. by eapply Hw.
  - intros i j Hi. apply elem_of_app.
    destruct (running_origin _ _ _ _ _ _ H Hi) as [Hi'|Hp]; [left|by right].
    by eapply Hw.
Qed.

(** ** What a ready future holds *)

Lemma resolved_app fut (v o : outcome V) tr ev :
  resolved fut v tr o -> fut ∉ completed ev -> resolved fut v (tr ++ ev) o.
Proof.
  intros [[Hc ->]|(Hn & -> & c & Hd)] Hev.
  - left. split; [|done]. rewrite completed_app. apply elem_of_app. by left.
  - right. split_and!; [|done|].
    + rewrite completed_app. by intros [?|?]%elem_of_app.
    + exists c. apply elem_of_app. by left.
Qed.

(** A packaged task enters the free store with a shared state that is not
    ready. *)
Lemma heap_new_step s a ev s' j pt' :
  step a s = Some (ev, s') -> heap s !! j = None ->
  heap s' !! j = Some pt' -> shared_state pt' = None.
Proof.
  intros H Hn Hj. destruct a; step_cases H; try congruence.
  all: try (rewrite lookup_destroy_tasks, Hn in Hj; done).
  all: try (apply lookup_app_Some in Hj as [Hj|[_ Hj]]; [congruence|];
            first [ rewrite list_lookup_fmap in Hj;
                    destruct (bound _ _ _ !! _); by simplify_eq/=
                  | by apply list_lookup_singleton_Some in Hj as [_ <-] ]).
  lookup_split Hj; simplify_eq/=; congruence.
Qed.

Lemma results_inv_step tr s a ev s' :
  exec_inv tr s -> results_inv tr s -> step a s = Some (ev, s') ->
  results_inv (tr ++ ev) s'.
Proof.
  intros (_ & Hex & _) Hi H j pt' Hj'.
  destruct (heap s !! j) as [pt|] eqn:Hj.
  - specialize (Hi _ _ Hj).
    destruct (resolution_step _ _ _ _ _ _ H Hj)
      as (pt1 & Hj1 & Hf & [[He Hn]|[(He & He' & Hc)|(He & He' & Hn & _ & c & Hd)]]);
      simplify_eq; rewrite ?He, ?He' in *; rewrite ?Hf.
    + destruct (shared_state pt) as [o|].
      * by apply resolved_app.
      * rewrite completed_app. by intros [?|?]%elem_of_app.
    + left. split; [|done]. rewrite completed_app. apply elem_of_app. by right.
    + right. split_and!; [|done|].
      * rewrite completed_app. by intros [?|?]%elem_of_app.
      * exists c. apply elem_of_app. by right.
  - rewrite (heap_new_step _ _ _ _ _ _ H Hj Hj').
    rewrite completed_app. intros [Hc|Hc]%elem_of_app.
    + destruct (Hex _ Hc) as [_ [o Ho]]. unfold future_get in Ho.
      by rewrite Hj in Ho.
    + destruct (completed_step _ _ _ _ _ H Hc) as (_ & _ & [o Ho] & _).
      unfold future_get in Ho. rewrite Hj' in Ho. simpl in Ho.
      by rewrite (heap_new_step _ _ _ _ _ _ H Hj Hj') in Ho.
Qed.

Lemma results_inv_run Policy n m (s0 : state A V) acts tr s :
  thread_pool Policy n m = inr s0 -> run acts s0 = Some (tr, s) ->
  exec_inv tr s /\ results_inv tr s.
Proof.
  intros Hc Hr.
  apply (run_invariant (fun tr s => exec_inv tr s /\ results_inv tr s) s0)
    with acts; [| |done].
  - apply thread_pool_inr in Hc as [_ ->]. split; [split_and!|].
    + apply NoDup_nil_2.
    + by intros j ?%elem_of_nil.
    + by intros i j [? _]%lookup_replicate.
    + by intros j pt Hj.
  - intros tr1 s1 a ev s1' [He Hi] Hst. split.
    + by eapply exec_inv_step.
    + by eapply results_inv_step.
Qed.

(** X4.  A future is written once, and in two ways only: in every state
    of an execution of a constructed pool, a future that is ready holds
    what the callable of its task returned if the job ran, and
    [broken_promise] if the job did not run and a destructor came to its
    end (the job was discarded with the queue); in every later state it
    holds the same. *)
Theorem future_write_once Policy n m (s0 : state A V) acts tr s acts' tr' s'
    fut o :
  thread_pool Policy n m = inr s0 -> run acts s0 = Some (tr, s) ->
  run acts' s = Some (tr', s') ->
  future_get fut s = Some o ->
  future_get fut s' = Some o /\
  exists pt, heap s !! fut = Some pt /\ resolved fut (fn pt tt) tr o.
Proof.
  intros Hc Hr Hr' Hg. unfold future_get in *.
  destruct (heap s !! fut) as [pt|] eqn:Hj; simplify_eq/=.
  destruct (heap_run _ _ _ _ _ _ Hr' Hj) as (pt' & -> & _ & He). simpl.
  split.
  - destruct He as [He|[[He _]|[He _]]]; congruence.
  - exists pt. split; [done|].
    destruct (results_inv_run _ _ _ _ _ _ _ Hc Hr) as [_ Hi].
    specialize (Hi _ _ Hj). by rewrite Hg in Hi.
Qed.

(** X3.  At most once, and in order of cause: in every execution of a
    constructed pool no job is run twice, no job is dequeued twice, a job
    that ran had been dequeued and a job that was dequeued had been
    pushed; the future of every job that ran is ready. *)
Theorem executed_at_most_once Policy n m (s0 : state A V) acts tr s :
  thread_pool Policy n m = inr s0 -> run acts s0 = Some (tr, s) ->
  NoDup (completed tr) /\
  NoDup (popped tr) /\
  (forall j, j ∈ completed tr -> j ∈ popped tr) /\
  (forall j, j ∈ popped tr -> j ∈ pushed tr) /\
  (forall j, j ∈ completed tr -> is_Some (future_get j s)).
Proof.
  intros Hc Hr.
  assert (exec_inv tr s) as (Hnd & Hcp & _).
  { apply (run_invariant exec_inv s0) with acts; [| |done].
    - apply thread_pool_inr in Hc as [_ ->]. split_and!.
      + apply NoDup_nil_2.
      + by intros j ?%elem_of_nil.
      + by intros i j [? _]%lookup_replicate.
    - intros. by eapply exec_inv_step. }
  pose proof (fifo_constructed _ _ _ _ _ _ _ Hc Hr) as Hfifo.
  destruct (trace_inv_run _ _ _ _ _ _ _ Hc Hr) as (_ & [Hndp _] & _).
  rewrite Hfifo in Hndp. apply NoDup_app in Hndp as (Hndp & _ & _).
  split_and!; [done..| | |].
  - intros j Hj. by apply Hcp.
  - intros j Hj. rewrite Hfifo. apply elem_of_app. by left.
  - intros j Hj. by apply Hcp.
Qed.

(** ** A stopped pool *)

Lemma queued_unready s j :
  inv s -> 1 <= count running (workers s) -> j ∈ tasks s ->
  future_get j s = None.
Proof.
  intros (_ & _ & Ho & _) Hrun Hj. specialize (Ho j).
  unfold occurrences in Ho.
  apply list_elem_of_lookup in Hj as [k Hk].
  pose proof (count_pos (Nat.eqb j) _ _ _ Hk (Nat.eqb_refl j)) as Hc.
  destruct (invocable_one (heap s) j) as [f Hf]; [lia|].
  unfold future_get. by rewrite Hf.
Qed.

(** A job enters the queue with a shared state that is not ready. *)
Lemma pushed_fresh s a ev s' j :
  inv s -> step a s = Some (ev, s') -> j ∈ pushed ev ->
  exists pt, heap s' !! j = Some pt /\ shared_state pt = None.
Proof.
  intros (_ & _ & Ho & _) H Hj.
  destruct a; step_cases H;
    rewrite ?pushed_app, ?pushed_EPush in Hj; simpl in Hj;
    rewrite ?app_nil_r in Hj; in_events Hj; try done.
  - subst. specialize (Ho j0).
    match goal with Hc : clients s !! _ = Some (CApplyLock _ _) |- _ =>
      pose proof (count_pos (cpending j0) _ _ _ Hc) as Hcnt end.
    simpl in Hcnt. rewrite Nat.eqb_refl in Hcnt. specialize (Hcnt eq_refl).
    destruct (invocable_one (heap s) j0) as [f Hf];
      [unfold occurrences in Ho; lia|].
    by eexists.
  - apply elem_of_seq in Hj as [Hge Hlt].
    rewrite lookup_app_r by lia. rewrite list_lookup_fmap.
    destruct (lookup_lt_is_Some_2 (bound cat func xs) (j - length (heap s)))
      as [f ->]; [rewrite length_bound; lia|].
    by eexists.
  - apply elem_of_seq in Hj as [Hge Hlt].
    rewrite lookup_app_r by lia. rewrite list_lookup_fmap.
    destruct (lookup_lt_is_Some_2 (bound cat func xs) (j - length (heap s)))
      as [f ->]; [rewrite length_bound; lia|].
    by eexists.
Qed.

Lemma ready_stays_step s a ev s' j o :
  step a s = Some (ev, s') -> future_get j s = Some o ->
  future_get j s' = Some o.
Proof.
  intros H Ho. unfold future_get in *.
  destruct (heap s !! j) as [pt|] eqn:Hj; simplify_eq/=.
  destruct (heap_step _ _ _ _ _ _ H Hj) as (pt' & -> & _ & He). simpl.
  destruct He as [He|[[He _]|[He _]]]; congruence.
Qed.

Lemma ready_stays_run s acts tr s' j o :
  run acts s = Some (tr, s') -> future_get j s = Some o ->
  future_get j s' = Some o.
Proof.
  intros Hr Ho.
  apply (run_invariant (fun _ s => future_get j s = Some o) s Ho) with acts tr;
    [|done].
  intros. by eapply ready_stays_step.
Qed.

Lemma queued_inv_step s a ev s' :
  inv s -> queued_inv s -> step a s = Some (ev, s') -> queued_inv s'.
Proof.
  intros Hinv Hq H j Hj.
  assert (j ∈ tasks s \/ j ∈ pushed ev) as [Hin|Hin].
  { apply elem_of_app. rewrite (fifo_step _ _ _ _ H).
    apply elem_of_app. by right. }
  - destruct (Hq _ Hin) as (pt & Hpt & Hst).
    destruct (resolution_step _ _ _ _ _ _ H Hpt)
      as (pt' & Hpt' & _ & [[He _]|[(_ & _ & Hc)|(_ & He & _)]]).
    + exists pt'. split; [done|]. by rewrite He.
    + exfalso.
      destruct (completed_step _ _ _ _ _ H Hc) as (_ & _ & _ & i & Hi).
      destruct Hinv as (_ & _ & Ho & _). specialize (Ho j).
      unfold occurrences in Ho.
      apply list_elem_of_lookup in Hin as [k Hk].
      pose proof (count_pos (Nat.eqb j) _ _ _ Hk (Nat.eqb_refl j)).
      pose proof (count_pos (wruns j) _ _ _ Hi) as Hr. simpl in Hr.
      rewrite Nat.eqb_refl in Hr. specialize (Hr eq_refl).
      pose proof (count_pos running _ _ _ Hi eq_refl).
      pose proof (invocable_le (heap s) j). lia.
    + exists pt'. split; [done|]. by right.
  - destruct (pushed_fresh _ _ _ _ _ Hinv H Hin) as (pt & Hpt & Hst).
    exists pt. split; [done|]. by left.
Qed.

Lemma queued_inv_reachable s : reachable s -> queued_inv s.
Proof.
  intros Hr.
  apply (reachable_invariant (fun s => inv s /\ queued_inv s)) in Hr;
    [tauto| |].
  - intros Policy n m s0 H0. split; [by eapply inv_thread_pool|].
    apply thread_pool_inr in H0 as [_ ->]. by intros j ?%elem_of_nil.
  - intros s1 a ev s1' [Hi Hq] Hst. split.
    + by eapply inv_step.
    + by eapply queued_inv_step.
Qed.

(** A job that ran in a run was in the hands of a worker at its start, or
    was dequeued during it. *)
Lemma completed_origin_run s acts tr s' j :
  run acts s = Some (tr, s') -> j ∈ completed tr ->
  (exists i, workers s !! i = Some (WRun j)) \/ j ∈ popped tr.
Proof.
  revert s tr. induction acts as [|a acts IH]; intros s tr Hr Hj;
    simpl in Hr.
  - simplify_eq. by apply elem_of_nil in Hj.
  - destruct (step a s) as [[ev s1]|] eqn:Es; simpl in Hr; [|done].
    destruct (run acts s1) as [[tr2 s3]|] eqn:Er; simpl in Hr; [|done].
    simplify_eq. rewrite completed_app in Hj. rewrite popped_app.
    setoid_rewrite elem_of_app.
    apply elem_of_app in Hj as [Hj|Hj].
    + destruct (completed_step _ _ _ _ _ Es Hj) as (_ & _ & _ & Hi). by left.
    + destruct (IH _ _ Er Hj) as [[i Hi]|Hp]; [|tauto].
      destruct (running_origin _ _ _ _ _ _ Es Hi) as [Hi'|Hp]; [|tauto].
      left. by exists i.
Qed.

Lemma halted_step s a ev s' :
  halted s -> step a s = Some (ev, s') ->
  halted s' /\ popped ev = [] /\ tasks s' = tasks s ++ pushed ev.
Proof.
  intros [Hs Hp] H.
  assert (popped ev = []) as Hpop.
  { destruct a; step_cases H;
      rewrite ?popped_app, ?popped_EPush; try done.
    by edestruct Hp. }
  pose proof (fifo_step _ _ _ _ H) as Hf. rewrite Hpop in Hf.
  split_and!; [|done..]. split; [by eapply stop_step|].
  clear Hf Hpop. intros i Hw.
  destruct a; step_cases H; try (by eapply Hp);
    try (lookup_split Hw; simplify_eq; try (by eapply Hp);
         match goal with x : wstate |- _ => destruct x; simplify_eq/= end;
         by eapply Hp).
Qed.

Lemma halted_run s acts tr s' :
  halted s -> run acts s = Some (tr, s') ->
  halted s' /\ popped tr = [] /\ tasks s' = tasks s ++ pushed tr.
Proof.
  revert s tr. induction acts as [|a acts IH]; intros s tr Hh Hr;
    simpl in Hr.
  - simplify_eq. simpl. by rewrite app_nil_r.
  - destruct (step a s) as [[ev s1]|] eqn:Es; simpl in Hr; [|done].
    destruct (run acts s1) as [[tr2 s3]|] eqn:Er; simpl in Hr; [|done].
    simplify_eq.
    destruct (halted_step _ _ _ _ Hh Es) as (Hh1 & Hp1 & Ht1).
    destruct (IH _ _ Hh1 Er) as (Hh2 & Hp2 & Ht2).
    rewrite popped_app, pushed_app, Hp1, Hp2, Ht2, Ht1.
    by rewrite <- app_assoc.
Qed.

(** The destructor abandons the jobs it finds in the queue. *)
Lemma destroyed_step s a ev s' c j :
  queued_inv s -> step a s = Some (ev, s') -> EReturn c destroy_ret ∈ ev ->
  j ∈ tasks s -> future_get j s' = Some (Exception broken_promise).
Proof.
  intros Hq H Hd Hj. destruct (Hq _ Hj) as (pt & Hpt & Hst).
  destruct a; step_cases H; in_events Hd; try done; simplify_eq.
  all: unfold future_get; simpl; rewrite lookup_destroy_tasks, Hpt;
    rewrite bool_decide_eq_true_2 by done; simpl;
    destruct pt as [f [o|]]; simpl in *; destruct Hst; by simplify_eq.
Qed.

Lemma destroyed_run s acts tr s' c j :
  reachable s -> halted s -> run acts s = Some (tr, s') ->
  EReturn c destroy_ret ∈ tr -> j ∈ tasks s ->
  future_get j s' = Some (Exception broken_promise).
Proof.
  revert s tr. induction acts as [|a acts IH]; intros s tr Hreach Hh Hr Hd Hj;
    simpl in Hr.
  - simplify_eq. by apply elem_of_nil in Hd.
  - destruct (step a s) as [[ev s1]|] eqn:Es; simpl in Hr; [|done].
    destruct (run acts s1) as [[tr2 s3]|] eqn:Er; simpl in Hr; [|done].
    simplify_eq. apply elem_of_app in Hd as [Hd|Hd].
    + apply (ready_stays_run _ _ _ _ _ _ Er).
      eapply destroyed_step; eauto. by apply queued_inv_reachable.
    + destruct (halted_step _ _ _ _ Hh Es) as (Hh1 & _ & Ht1).
      apply (IH s1 tr2); try done.
      * by eapply reachable_step.
      * rewrite Ht1. apply elem_of_app. by left.
Qed.

(** X5.  Hard stop: once the flag is set and no worker is between the
    test of the flag (line 162) and the pop, no job is ever dequeued
    again.  The queue only grows (by jobs of submitters that had passed
    their test of the flag).  The future of a job in it is not ready, or
    holds [broken_promise]: it stays as it is for as long as no destructor
    has come to its end, and holds [broken_promise] once one has. *)
Theorem stopped_pool_discards s acts tr s' :
  reachable s -> stop s = true ->
  (forall i, workers s !! i <> Some WPop) ->
  run acts s = Some (tr, s') ->
  popped tr = [] /\
  tasks s' = tasks s ++ pushed tr /\
  (forall j, j ∈ tasks s' ->
     future_get j s' = None \/
     future_get j s' = Some (Exception broken_promise)) /\
  ((forall c, EReturn c destroy_ret ∉ tr) ->
   forall j, j ∈ tasks s -> future_get j s' = future_get j s) /\
  (forall c, EReturn c destroy_ret ∈ tr ->
   forall j, j ∈ tasks s ->
     future_get j s' = Some (Exception broken_promise)).
Proof.
  intros Hreach Hs Hp Hr.
  destruct (halted_run s acts tr s' (conj Hs Hp) Hr) as (_ & Hpop & Ht).
  pose proof (inv_reachable _ Hreach) as Hinv.
  split_and!; [done..| | |].
  - intros j Hj.
    destruct (queued_inv_reachable s' (reachable_run _ _ _ _ Hreach Hr) _ Hj)
      as (pt & Hpt & Hst).
    unfold future_get. rewrite Hpt. simpl. destruct Hst as [->| ->]; tauto.
  - intros Hnd j Hj.
    destruct (queued_inv_reachable _ Hreach _ Hj) as (pt & Hpt & _).
    destruct (resolution_run _ _ _ _ _ _ Hr Hpt)
      as (pt' & Hpt' & _ & [[He _]|[(_ & _ & Hc)|(_ & _ & _ & c & Hd)]]).
    + unfold future_get. by rewrite Hpt, Hpt'; simpl; rewrite He.
    + exfalso.
      destruct (completed_origin_run _ _ _ _ _ Hr Hc) as [[i Hi]|Hpp].
      * destruct Hinv as (_ & _ & Ho & _). specialize (Ho j).
        unfold occurrences in Ho.
        apply list_elem_of_lookup in Hj as [k Hk].
        pose proof (count_pos (Nat.eqb j) _ _ _ Hk (Nat.eqb_refl j)).
        pose proof (count_pos (wruns j) _ _ _ Hi) as Hrn. simpl in Hrn.
        rewrite Nat.eqb_refl in Hrn. specialize (Hrn eq_refl).
        pose proof (count_pos running _ _ _ Hi eq_refl).
        pose proof (invocable_le (heap s) j). lia.
      * rewrite Hpop in Hpp. by apply elem_of_nil in Hpp.
    + by destruct (Hnd c).
  - intros c Hd j Hj. by eapply destroyed_run.
Qed.


(** ** [terminate] and the worker threads *)

Lemma exited_step s a ev s' i :
  step a s = Some (ev, s') -> workers s !! i = Some WExited ->
  workers s' !! i = Some WExited.
Proof.
  intros H Hw. destruct a; step_cases H; try done;
    try (by apply notify_one_lookup_fixed);
    try (by apply notify_all_lookup_fixed);
    try (match goal with |- <[?i0 := _]> _ !! _ = _ =>
           destruct (decide (i = i0)) as [->|?];
           [simplify_eq | by rewrite list_lookup_insert_ne] end).
Qed.

Lemma join_inv_step s a ev s' :
  join_inv s -> step a s = Some (ev, s') -> join_inv s'.
Proof.
  intros Hj H c0 i0 k0 Hc i' Hlt.
  assert (forall c i k, clients s !! c = Some (CTermJoin i k) ->
            forall i', i' < i -> workers s' !! i' = Some WExited) as Hj'.
  { intros c i k Hck i1 Hi1. apply (exited_step _ _ _ _ _ H). by eapply Hj. }
  assert (forall i, workers s !! i = Some WExited ->
            workers s' !! i = Some WExited) as Hex.
  { intros i. by apply (exited_step _ _ _ _ _ H). }
  clear Hj. destruct a; step_cases H; try (by eapply Hj');
    try (lookup_split Hc; simplify_eq; try (by eapply Hj');
         try (match goal with x : cstate _ _ |- _ =>
                destruct x; simplify_eq/= end; by eapply Hj')).
  - lia.
  - destruct (decide (i' = i)) as [->|Hne]; [by apply Hex|].
    eapply Hj'; [done|]. lia.
Qed.

Lemma join_inv_reachable s : reachable s -> join_inv s.
Proof.
  apply reachable_invariant.
  - intros Policy n m s0 [_ ->]%thread_pool_inr c i k
      [? _]%lookup_replicate. done.
  - apply join_inv_step.
Qed.

Lemma notify_one_none {T} (waiting : T -> bool) (wake : T -> T) ch
    (l : list T) :
  (forall i x, l !! i = Some x -> wake x = x) ->
  notify_one waiting wake ch l = l.
Proof.
  intros Hl. unfold notify_one. destruct (positions waiting 0 l); [done|].
  set (t := nth _ _ _). apply list_eq. intros i.
  destruct (decide (t = i)) as [->|Hne].
  - rewrite list_lookup_alter_eq. destruct (l !! i) as [x|] eqn:Hx; [|done].
    simpl. by rewrite (Hl _ _ Hx).
  - by rewrite list_lookup_alter_ne.
Qed.

Lemma notify_all_none {T} (wake : T -> T) (l : list T) :
  (forall i x, l !! i = Some x -> wake x = x) -> notify_all wake l = l.
Proof.
  intros Hl. unfold notify_all. apply list_eq. intros i.
  rewrite list_lookup_fmap. destruct (l !! i) as [x|] eqn:Hx; [|done].
  simpl. by rewrite (Hl _ _ Hx).
Qed.

Lemma all_exited_step s a ev s' :
  all_exited s -> step a s = Some (ev, s') ->
  workers s' = workers s /\ popped ev = [] /\ completed ev = [].
Proof.
  intros He H.
  assert (forall i x, workers s !! i = Some x -> wwake x = x) as Hfix.
  { intros i x Hx. by rewrite (He _ _ Hx). }
  destruct a; step_cases H;
    rewrite ?popped_app, ?popped_EPush, ?completed_app, ?completed_EPush;
    rewrite ?notify_one_none, ?notify_all_none by done; try done.
  all: match goal with Hw : workers _ !! _ = Some _ |- _ =>
         by specialize (He _ _ Hw) end.
Qed.

Lemma all_exited_run s acts tr s' :
  all_exited s -> run acts s = Some (tr, s') ->
  workers s' = workers s /\ popped tr = [] /\ completed tr = [].
Proof.
  revert s tr. induction acts as [|a acts IH]; intros s tr Hh Hr;
    simpl in Hr.
  - by simplify_eq.
  - destruct (step a s) as [[ev s1]|] eqn:Es; simpl in Hr; [|done].
    destruct (run acts s1) as [[tr2 s3]|] eqn:Er; simpl in Hr; [|done].
    simplify_eq.
    destruct (all_exited_step _ _ _ _ Hh Es) as (Hw1 & Hp1 & Hc1).
    destruct (IH s1 tr2) as (Hw2 & Hp2 & Hc2); [|done|].
    { unfold all_exited. rewrite Hw1. apply Hh. }
    rewrite popped_app, completed_app, Hp1, Hp2, Hc1, Hc2, Hw2, Hw1. done.
Qed.

(** X6.  When the call of [terminate] that set the flag returns (it comes
    back from the loop of line 196), every worker thread has returned from
    its thread function; from then on no worker takes a step: nothing is
    dequeued and nothing is run, whatever the clients do. *)
Theorem terminate_joins_all_workers s c i k choice ev s' :
  reachable s ->
  clients s !! c = Some (CTermJoin i k) ->
  step (Client c choice) s = Some (ev, s') ->
  EReturn c terminate_ret ∈ ev ->
  (forall w, w < size s' -> workers s' !! w = Some WExited) /\
  (forall acts tr s'', run acts s' = Some (tr, s'') ->
     workers s'' = workers s' /\ popped tr = [] /\ completed tr = []).
Proof.
  intros Hreach Hc Hs Hev.
  pose proof (join_inv_reachable _ Hreach _ _ _ Hc) as Hj.
  assert (workers s' = workers s /\ length (workers s) <= i) as [Hw Hlen].
  { simpl in Hs. unfold client_step in Hs. rewrite Hc in Hs. simpl in Hs.
    destruct (workers s !! i) as [w|] eqn:Hwi.
    - destruct w; simplify_eq; in_events Hev; done.
    - split; [|by apply lookup_ge_None].
      unfold terminate_return, destroy_members in Hs.
      destruct k; [|case_match]; by simplify_eq. }
  assert (forall w, w < size s' -> workers s' !! w = Some WExited) as Hall.
  { intros w Hlt. unfold size in Hlt. rewrite Hw in *. apply Hj. lia. }
  split; [done|]. intros acts tr s'' Hr. eapply all_exited_run; [|done].
  intros w x Hx. pose proof (lookup_lt_Some _ _ _ Hx) as Hlt.
  specialize (Hall w Hlt). congruence.
Qed.


(** ** The lost wake-up of [terminate] *)

Lemma cquiet_cwake (st : cstate A V) : cquiet (cwake st) = cquiet st.
Proof. by destruct st. Qed.

Lemma hung_step i c s a ev s' :
  hung i c s -> a <> SpuriousWorker i -> step a s = Some (ev, s') ->
  hung i c s' /\ forall r, EReturn c r ∉ ev.
Proof.
  intros (Hs & Hw & Hq & k & Hk & Hc) Ha H.
  assert (i < length (workers s)) as Hi by (by eapply lookup_lt_Some).
  assert (k < length (workers s)) as Hkl by lia.
  assert (forall c0 st, clients s !! c0 = Some st ->
            st <> CTermJoin k KReturn -> c0 <> c) as Hne.
  { intros c0 st Hl Hst ->. congruence. }
  assert (forall i0 w, workers s !! i0 = Some w -> w <> WWait -> i0 <> i)
    as Hnw.
  { intros i0 w Hl Hst ->. congruence. }
  destruct a; step_cases H;
    try match goal with
    | Hl : clients _ !! _ = Some _ |- _ =>
        let Hx := fresh in pose proof (Hq _ _ Hl) as Hx; simpl in Hx;
        discriminate Hx
    end.
  all: try match goal with
    | Hl : clients _ !! ?c0 = Some CIdle |- _ =>
        assert (c0 <> c) by (by eapply Hne)
    | Hl : workers _ !! ?i0 = Some WWait |- _ =>
        assert (i0 <> i) by congruence
    | Hl : workers _ !! ?i0 = Some _ |- _ =>
        assert (i0 <> i) by (by eapply Hnw)
    end.
  all: try match goal with
    | Hl : clients _ !! ?c0 = Some (CTermJoin ?i0 _),
      Hn : workers _ !! ?i0 = None |- _ =>
        assert (c0 <> c)
          by (intros ->; simplify_eq; apply lookup_ge_None in Hn; lia)
    end.
  all: split; [| intros r Hin; in_events Hin; by simplify_eq ].
  all: unfold hung; simpl; split_and!; try done.
  all: try (by rewrite list_lookup_insert_ne).
  all: try (intros c' st Hl; lookup_split Hl; simplify_eq;
            rewrite ?cquiet_cwake; try done; by eapply Hq).
  all: try (exists k; split; [done|];
            first [ done
                  | by rewrite list_lookup_insert_ne
                  | by apply notify_one_lookup_fixed ]).
  (* the client goes on to the next worker of the loop of line 196 *)
  destruct (decide (c0 = c)) as [->|Hcc].
  - simplify_eq. exists (S k). split.
    + destruct (decide (k = i)) as [->|]; [congruence | lia].
    + by apply list_lookup_insert_eq, lookup_lt_Some with (CTermJoin k KReturn).
  - exists k. split; [done|]. by rewrite list_lookup_insert_ne.
Qed.

Lemma hung_run i c s acts tr s' :
  hung i c s -> no_spurious i acts -> run acts s = Some (tr, s') ->
  hung i c s' /\ forall r, EReturn c r ∉ tr.
Proof.
  revert s tr. induction acts as [|a acts IH]; intros s tr Hh Hn Hr;
    simpl in Hr.
  - simplify_eq. split; [done|]. by intros r ?%elem_of_nil.
  - destruct (step a s) as [[ev s1]|] eqn:Es; simpl in Hr; [|done].
    destruct (run acts s1) as [[tr2 s3]|] eqn:Er; simpl in Hr; [|done].
    simplify_eq. apply Forall_cons in Hn as [Ha Hn].
    destruct (hung_step i c s a ev s1 Hh) as [Hh1 He1]; [|done|].
    { intros ->. done. }
    destruct (IH _ _ Hh1 Hn Er) as [Hh2 He2].
    split; [done|]. intros r [?|?]%elem_of_app; [by eapply He1|by eapply He2].
Qed.

(** X7.  The lost wake-up of [terminate].  [terminate] sets the flag and
    notifies without holding [task_mutex].  If this falls between a
    worker's evaluation of its loop condition (line 159) and its call of
    [wait] (line 160), the worker goes to sleep after the notification:
    unless that [wait] returns spuriously the worker sleeps for ever, and
    the call of [terminate] never returns. *)
Theorem terminate_can_hang s i c :
  workers s !! i = Some WCallWait ->
  stop s = false ->
  (forall c' st, clients s !! c' = Some st -> st = CIdle) ->
  c < length (clients s) ->
  exists s1,
    run [Call c Terminate; Client c 0; Worker i 0] s = Some ([], s1) /\
    stop s1 = true /\
    workers s1 !! i = Some WWait /\
    clients s1 !! c = Some (CTermJoin 0 KReturn) /\
    forall acts tr s2,
      no_spurious i acts -> run acts s1 = Some (tr, s2) ->
      workers s2 !! i = Some WWait /\
      (exists k, clients s2 !! c = Some (CTermJoin k KReturn)) /\
      (forall r, EReturn c r ∉ tr).
Proof.
  intros Hw Hs Hidle Hc.
  destruct (lookup_lt_is_Some_2 _ _ Hc) as [st Hst].
  pose proof (Hidle _ _ Hst) as ->.
  assert (i < length (workers s)) as Hi by (by eapply lookup_lt_Some).
  set (s1 := set_worker i WWait (set_mutex false
               (set_client c (CTermJoin 0 KReturn)
                  (set_workers (notify_all wwake (workers s))
                     (set_client c (CTermNotify KReturn)
                        (set_stop true s)))))).
  assert (notify_all wwake (workers s) !! i = Some WCallWait) as Hwn
    by (by apply notify_all_lookup_fixed).
  assert (hung i c s1) as Hh.
  { unfold hung, s1. simpl. split_and!.
    - done.
    - apply list_lookup_insert_eq. unfold notify_all.
      by rewrite length_fmap.
    - intros c' st Hl. rewrite list_insert_insert_eq in Hl.
      lookup_split Hl; simplify_eq; [done|]. by rewrite (Hidle _ _ Hl).
    - exists 0. split; [lia|]. rewrite list_insert_insert_eq.
      by apply list_lookup_insert_eq. }
  exists s1. split_and!.
  - change (@nil event) with (@nil event ++ [] ++ [] ++ []).
    eapply run_cons; [by apply terminate_sets_stop|].
    eapply run_cons.
    { cbn [step]. unfold client_step.
      cbn [clients set_client set_clients set_stop].
      rewrite list_lookup_insert_eq by done. reflexivity. }
    eapply run_cons; [|reflexivity].
    cbn [step]. unfold worker_func.
    cbn [workers set_client set_clients set_workers set_stop].
    rewrite Hwn. reflexivity.
  - done.
  - apply Hh.
  - destruct Hh as (_ & _ & _ & k & Hk & Hck). unfold s1. simpl.
    rewrite list_insert_insert_eq. by apply list_lookup_insert_eq.
  - intros acts tr s2 Hn Hr.
    destruct (hung_run _ _ _ _ _ _ Hh Hn Hr) as [(_ & Hw2 & _ & k & _ & Hk) He].
    eauto.
Qed.

(** ** What a submission does to the queue and to the sleeping workers *)









(** ** No lost wake-up for a queued job *)








(** ** Progress of the queue *)









(** ** [join] on a pool that is stopped meanwhile *)

Lemma joining_cwake (st : cstate A V) : joining (cwake st) = joining st.
Proof. by destruct st. Qed.

Lemma notify_one_lookup_some {T} (waiting : T -> bool) (wake : T -> T) ch
    (l : list T) i x :
  l !! i = Some x ->
  notify_one waiting wake ch l !! i = Some x \/
  notify_one waiting wake ch l !! i = Some (wake x).
Proof.
  intros Hl. unfold notify_one.
  destruct (positions waiting 0 l) as [|k rest]; [by left|].
  set (t := nth _ _ _). destruct (decide (t = i)) as [->|Hne].
  - right. by rewrite list_lookup_alter_eq, Hl.
  - left. by rewrite list_lookup_alter_ne.
Qed.

Lemma joining_step s a ev s' c st :
  tasks s <> [] -> clients s !! c = Some st -> joining st = true ->
  step a s = Some (ev, s') ->
  (forall r, EReturn c r ∉ ev) /\ (forall e, EThrow c e ∉ ev) /\
  exists st', clients s' !! c = Some st' /\ joining st' = true.
Proof.
  intros Ht Hc Hj H.
  destruct a; step_cases H.
  all: split_and!;
    [ intros r Hin; in_events Hin; simplify_eq
    | intros e Hin; in_events Hin; simplify_eq
    | ].
  all: try (by eexists).
  all: try (match goal with
            | |- exists _, <[?c0 := _]> _ !! _ = _ /\ _ =>
                destruct (decide (c = c0)) as [->|?];
                [ simplify_eq/=;
                  try (eexists; split;
                       [by apply list_lookup_insert_eq; eapply lookup_lt_Some
                       | done])
                | rewrite list_lookup_insert_ne by done; by eexists ]
            end).
  all: try (by destruct (tasks s)).
  destruct (notify_one_lookup_some cwaiting cwake choice _ _ _ Hc)
    as [->| ->]; eexists; split; try done.
  by rewrite joining_cwake.
Qed.

(** X11.  A [join] overtaken by [terminate]: once the flag is set with
    jobs still queued and no worker between the test of the flag and the
    pop, a thread inside [join] (called by the program or by the
    destructor) stays there in every continuation; [join] neither returns
    nor throws, even when its [wait] returns spuriously. *)
Theorem join_blocked_by_terminate s c st acts tr s' :
  stop s = true -> (forall i, workers s !! i <> Some WPop) ->
  tasks s <> [] ->
  clients s !! c = Some st -> joining st = true ->
  run acts s = Some (tr, s') ->
  (forall r, EReturn c r ∉ tr) /\ (forall e, EThrow c e ∉ tr) /\
  tasks s' <> [] /\
  exists st', clients s' !! c = Some st' /\ joining st' = true.
Proof.
  intros Hs Hp. revert s st tr Hs Hp.
  induction acts as [|a acts IH]; intros s st tr Hs Hp Ht Hc Hj Hr;
    simpl in Hr.
  - simplify_eq. split_and!; try (by intros ? ?%elem_of_nil); eauto.
  - destruct (step a s) as [[ev s1]|] eqn:Es; simpl in Hr; [|done].
    destruct (run acts s1) as [[tr2 s2]|] eqn:Er; simpl in Hr; [|done].
    simplify_eq.
    destruct (halted_step _ _ _ _ (conj Hs Hp) Es) as ([Hs1 Hp1] & _ & Ht1).
    destruct (joining_step _ _ _ _ _ _ Ht Hc Hj Es)
      as (Hr1 & He1 & st1 & Hc1 & Hj1).
    assert (tasks s1 <> []) as Hne1.
    { rewrite Ht1. by destruct (tasks s). }
    destruct (IH _ _ _ Hs1 Hp1 Hne1 Hc1 Hj1 Er) as (Hr2 & He2 & Hne2 & Hst2).
    split_and!; [| |done..].
    + intros r [?|?]%elem_of_app; [by eapply Hr1 | by eapply Hr2].
    + intros e [?|?]%elem_of_app; [by eapply He1 | by eapply He2].
Qed.


(** ** The result handle of [apply_get] *)





End extra.

(** ** The properties on the small programs *)

Lemma reachable_final (Policy : bool) (acts : list (action nat nat)) :
  is_Some (run acts (pool1 Policy)) ->
  reachable (final acts (pool1 Policy)).
Proof.
  intros [[tr s] Hr]. exists Policy, 1, 1, (pool1 Policy), acts, tr.
  split; [reflexivity|]. unfold final. by rewrite Hr.
Qed.

Lemma mutual_exclusion_witness :
  holders (final about_to_wait (pool1 TERMINATE))
  = (if task_mutex (final about_to_wait (pool1 TERMINATE)) then 1 else 0) /\
  task_mutex (final about_to_wait (pool1 TERMINATE)) = true.
Proof.
  assert (reachable (final about_to_wait (pool1 TERMINATE))) as Hreach.
  { apply reachable_final. vm_compute. eauto. }
  split; [exact (proj1 (mutual_exclusion _ Hreach)) | reflexivity].
Defined.

Lemma workers_never_crash_witness :
  (forall w, ECrash w ∉ trace two_tasks pool2) /\
  (forall w, workers (final two_tasks pool2) !! w <> Some WCrashed) /\
  (forall w, workers (final two_tasks pool2) !! w = Some WPop ->
     tasks (final two_tasks pool2) <> []) /\
  (forall w j, workers (final two_tasks pool2) !! w = Some (WRun j) ->
     j < length (heap (final two_tasks pool2)) /\
     future_get j (final two_tasks pool2) = None).
Proof.
  assert (run two_tasks pool2
          = Some (trace two_tasks pool2, final two_tasks pool2)) as Hr
    by (vm_compute; reflexivity).
  exact (workers_never_crash TERMINATE 2 1 _ _ _ _ eq_refl Hr).
Defined.

Lemma executed_at_most_once_witness :
  NoDup (completed (trace two_tasks pool2)) /\
  NoDup (popped (trace two_tasks pool2)) /\
  (forall j, j ∈ completed (trace two_tasks pool2) ->
             j ∈ popped (trace two_tasks pool2)) /\
  (forall j, j ∈ popped (trace two_tasks pool2) ->
             j ∈ pushed (trace two_tasks pool2)) /\
  (forall j, j ∈ completed (trace two_tasks pool2) ->
             is_Some (future_get j (final two_tasks pool2))).
Proof.
  assert (run two_tasks pool2
          = Some (trace two_tasks pool2, final two_tasks pool2)) as Hr
    by (vm_compute; reflexivity).
  exact (executed_at_most_once TERMINATE 2 1 _ _ _ _ eq_refl Hr).
Defined.

Lemma future_write_once_witness :
  future_get 0 (final (apply_get_call ++ destroyed_early ++ [Call 0 Terminate])
                  (pool1 TERMINATE))
  = Some (Exception broken_promise) /\
  exists pt,
    heap (final (apply_get_call ++ destroyed_early) (pool1 TERMINATE)) !! 0
    = Some pt /\
    resolved 0 (fn pt tt)
      (trace (apply_get_call ++ destroyed_early) (pool1 TERMINATE))
      (Exception broken_promise).
Proof.
  assert (run (apply_get_call ++ destroyed_early) (pool1 TERMINATE)
          = Some (trace (apply_get_call ++ destroyed_early) (pool1 TERMINATE),
                  final (apply_get_call ++ destroyed_early) (pool1 TERMINATE)))
    as Hr by (vm_compute; reflexivity).
  assert (run [Call 0 Terminate]
            (final (apply_get_call ++ destroyed_early) (pool1 TERMINATE))
          = Some ([EReturn 0 terminate_ret],
                  final (apply_get_call ++ destroyed_early
                         ++ [Call 0 Terminate]) (pool1 TERMINATE)))
    as Hr' by (vm_compute; reflexivity).
  assert (future_get 0
            (final (apply_get_call ++ destroyed_early) (pool1 TERMINATE))
          = Some (Exception broken_promise)) as Hg
    by (vm_compute; reflexivity).
  exact (future_write_once TERMINATE 1 1 _ _ _ _ _ _ _ 0 _ eq_refl Hr Hr' Hg).
Defined.

Lemma stopped_pool_discards_witness :
  popped (trace finish_and_destroy (final submit_then_stop (pool1 TERMINATE)))
  = [] /\
  tasks (final (submit_then_stop ++ finish_and_destroy) (pool1 TERMINATE))
  = [0] /\
  future_get 0 (final (submit_then_stop ++ finish_and_destroy)
                  (pool1 TERMINATE))
  = Some (Exception broken_promise).
Proof.
  assert (reachable (final submit_then_stop (pool1 TERMINATE))) as Hreach.
  { apply reachable_final. vm_compute. eauto. }
  assert (stop (final submit_then_stop (pool1 TERMINATE)) = true) as Hs
    by reflexivity.
  assert (forall i, workers (final submit_then_stop (pool1 TERMINATE)) !! i
                    <> Some WPop) as Hp.
  { intros [|[|i]]; vm_compute; discriminate. }
  assert (run finish_and_destroy (final submit_then_stop (pool1 TERMINATE))
          = Some (trace finish_and_destroy
                    (final submit_then_stop (pool1 TERMINATE)),
                  final (submit_then_stop ++ finish_and_destroy)
                    (pool1 TERMINATE))) as Hr
    by (vm_compute; reflexivity).
  assert (trace finish_and_destroy (final submit_then_stop (pool1 TERMINATE))
          = [EReturn 0 terminate_ret; EReturn 0 terminate_ret;
             EReturn 0 destroy_ret]) as Htr
    by (vm_compute; reflexivity).
  destruct (stopped_pool_discards _ _ _ _ Hreach Hs Hp Hr)
    as (Hpop & Ht & _ & _ & Hd).
  split; [exact Hpop|]. split; [vm_compute; reflexivity|].
  apply (Hd 0).
  - rewrite Htr. apply list_elem_of_further, list_elem_of_further,
      list_elem_of_here.
  - vm_compute. left.
Defined.

Lemma terminate_joins_all_workers_witness :
  (forall w, w < size (final terminated (pool1 TERMINATE)) ->
     workers (final terminated (pool1 TERMINATE)) !! w = Some WExited) /\
  (forall acts tr s'',
     run acts (final terminated (pool1 TERMINATE)) = Some (tr, s'') ->
     workers s'' = workers (final terminated (pool1 TERMINATE)) /\
     popped tr = [] /\ completed tr = []).
Proof.
  assert (reachable (final terminating (pool1 TERMINATE))) as Hreach.
  { apply reachable_final. vm_compute. eauto. }
  assert (clients (final terminating (pool1 TERMINATE)) !! 0
          = Some (CTermJoin 1 KReturn)) as Hc by (vm_compute; reflexivity).
  assert (step (Client 0 0) (final terminating (pool1 TERMINATE))
          = Some ([EReturn 0 terminate_ret],
                  final terminated (pool1 TERMINATE))) as Hs
    by (vm_compute; reflexivity).
  exact (terminate_joins_all_workers _ 0 1 KReturn 0 _ _ Hreach Hc Hs
           (list_elem_of_here _ _)).
Defined.

Lemma terminate_can_hang_witness :
  exists s1,
    run [Call 0 Terminate; Client 0 0; Worker 0 0]
        (final about_to_wait (pool1 TERMINATE)) = Some ([], s1) /\
    stop s1 = true /\
    workers s1 !! 0 = Some WWait /\
    clients s1 !! 0 = Some (CTermJoin 0 KReturn) /\
    forall acts tr s2,
      no_spurious 0 acts -> run acts s1 = Some (tr, s2) ->
      workers s2 !! 0 = Some WWait /\
      (exists k, clients s2 !! 0 = Some (CTermJoin k KReturn)) /\
      (forall r, EReturn 0 r ∉ tr).
Proof.
  assert (workers (final about_to_wait (pool1 TERMINATE)) !! 0
          = Some WCallWait) as Hw by (vm_compute; reflexivity).
  assert (stop (final about_to_wait (pool1 TERMINATE)) = false) as Hs
    by reflexivity.
  assert (forall c' st,
            clients (final about_to_wait (pool1 TERMINATE)) !! c' = Some st ->
            st = CIdle) as Hidle.
  { intros [|[|c']] st Hl; vm_compute in Hl; congruence. }
  assert (0 < length (clients (final about_to_wait (pool1 TERMINATE))))
    as Hc by (vm_compute; lia).
  exact (terminate_can_hang _ 0 0 Hw Hs Hidle Hc).
Defined.




Lemma join_blocked_by_terminate_witness :
  (forall r, EReturn 0 r ∉ trace stop_and_wake (final join_then_stop shared_pool)) /\
  exists st', clients (final (join_then_stop ++ stop_and_wake) shared_pool) !! 0
              = Some st' /\ joining st' = true.
Proof.
  assert (stop (final join_then_stop shared_pool) = true) as Hs
    by reflexivity.
  assert (forall i, workers (final join_then_stop shared_pool) !! i
                    <> Some WPop) as Hp.
  { intros [|[|i]]; vm_compute; discriminate. }
  assert (tasks (final join_then_stop shared_pool) <> []) as Ht
    by (vm_compute; discriminate).
  assert (clients (final join_then_stop shared_pool) !! 0
          = Some (CJoinWait KReturn)) as Hc by (vm_compute; reflexivity).
  assert (run stop_and_wake (final join_then_stop shared_pool)
          = Some (trace stop_and_wake (final join_then_stop shared_pool),
                  final (join_then_stop ++ stop_and_wake) shared_pool)) as Hr
    by (vm_compute; reflexivity).
  destruct (join_blocked_by_terminate _ 0 _ _ _ _ Hs Hp Ht Hc eq_refl Hr)
    as (Hret & _ & _ & Hst).
  exact (conj Hret Hst).
Defined.



End PoolExtra.

(** * Further properties of the harness *)
Module FrameworkExtra.
Import Framework HarnessPrograms FrameworkMore FrameworkProofs.

Lemma count_if_split {T} (p : T -> bool) (l : list T) :
  count_if (fun x => negb (p x)) l + count_if p l = length l.
Proof. induction l as [|x l IH]; simpl; [done|]. destruct (p x); simpl; lia. Qed.

(** X12.  The note in framework.h: the number of passed tests plus the
    number of failed tests is the number of executed tests. *)
Theorem passed_plus_failed fw :
  passed_count fw + failed_count fw = executed_size fw.
Proof.
  apply (count_if_split (fun res => has_value (snd res)) (results fw)).
Qed.

(** ** The order of the names *)

Lemma ascii_compare_lt_trans a b c :
  Ascii.compare a b = Lt -> Ascii.compare b c = Lt -> Ascii.compare a c = Lt.
Proof.
  unfold Ascii.compare. rewrite !N.compare_lt_iff. lia.
Qed.

Lemma ascii_compare_refl a : Ascii.compare a a = Eq.
Proof. unfold Ascii.compare. apply N.compare_refl. Qed.

Lemma name_lt_trans s1 s2 s3 :
  name_lt s1 s2 -> name_lt s2 s3 -> name_lt s1 s3.
Proof.
  unfold name_lt. revert s2 s3.
  induction s1 as [|a s1 IH]; intros [|b s2] [|c s3]; simpl; try done.
  destruct (Ascii.compare a b) eqn:Hab; try done;
    destruct (Ascii.compare b c) eqn:Hbc; try done.
  - apply Ascii.compare_eq_iff in Hab as ->.
    apply Ascii.compare_eq_iff in Hbc as ->.
    rewrite ascii_compare_refl. apply IH.
  - apply Ascii.compare_eq_iff in Hab as ->. by rewrite Hbc.
  - apply Ascii.compare_eq_iff in Hbc as <-. by rewrite Hab.
  - by rewrite (ascii_compare_lt_trans _ _ _ Hab Hbc).
Qed.

Lemma name_lt_irrefl s : ~ name_lt s s.
Proof.
  unfold name_lt. assert (String.compare s s = Eq) as Heq.
  { induction s as [|a s IH]; simpl; [done|].
    by rewrite ascii_compare_refl. }
  by rewrite Heq.
Qed.

Lemma name_gt_lt s1 s2 : String.compare s1 s2 = Gt -> name_lt s2 s1.
Proof.
  unfold name_lt. intros H. rewrite String.compare_antisym, H. done.
Qed.

Lemma increasing_NoDup l : increasing l -> NoDup l.
Proof.
  induction l as [|x l IH]; simpl; [intros; apply NoDup_nil_2|].
  intros [Hx Hl]. apply NoDup_cons. split; [|by apply IH].
  intros Hin. rewrite Forall_forall in Hx. by apply (name_lt_irrefl x), Hx.
Qed.

Section map.
Context {T : Type}.
Implicit Types (m : list (string * T)) (name other : string).

Lemma find_keys name m : is_Some (find name m) <-> name ∈ keys m.
Proof.
  split.
  - intros [v Hv]. by eapply find_fst_elem.
  - apply elem_fst_find.
Qed.

Lemma keys_insert_sorted name (v : T) m x :
  x ∈ keys (insert_sorted name v m) <-> x = name \/ x ∈ keys m.
Proof.
  unfold keys. induction m as [|[k w] m IH]; simpl.
  - rewrite list_elem_of_singleton. split; [by left|].
    intros [?|?%elem_of_nil]; done.
  - destruct (String.compare name k); csimpl;
      rewrite ?elem_of_cons, ?IH; csimpl; rewrite ?elem_of_cons; tauto.
Qed.

Lemma length_insert_sorted name (v : T) m :
  length (insert_sorted name v m) = S (length m).
Proof.
  induction m as [|[k w] m IH]; simpl; [done|].
  destruct (String.compare name k); simpl; by rewrite ?IH.
Qed.

Lemma increasing_insert_sorted name (v : T) m :
  find name m = None -> increasing (keys m) ->
  increasing (keys (insert_sorted name v m)).
Proof.
  unfold keys. induction m as [|[k w] m IH]; simpl.
  - intros _ _. split; [apply Forall_nil_2 | done].
  - destruct (String.eqb_spec name k) as [->|Hne]; [done|].
    intros Hf [Hk Hm].
    destruct (String.compare name k) eqn:Hc; csimpl.
    + by apply String.compare_eq_iff in Hc.
    + split; [|done]. apply Forall_cons. split; [done|].
      eapply Forall_impl; [exact Hk|]. intros x Hx. by eapply name_lt_trans.
    + split; [|by apply IH]. apply Forall_forall. intros x Hx.
      apply (keys_insert_sorted name v m x) in Hx as [->|Hx].
      * by apply name_gt_lt.
      * rewrite Forall_forall in Hk. by apply Hk.
Qed.

Lemma keys_erase name m x :
  x ∈ keys (map_erase name m) <-> x <> name /\ x ∈ keys m.
Proof.
  unfold keys. induction m as [|[k w] m IH]; simpl.
  - split; [by intros ?%elem_of_nil | by intros [_ ?%elem_of_nil]].
  - destruct (String.eqb_spec name k) as [->|Hne]; csimpl;
      rewrite ?elem_of_cons, IH.
    + split; [tauto|]. intros [Hx [?|?]]; [done|tauto].
    + split; [|tauto]. intros [->|?]; [|tauto]. split; [congruence|by left].
Qed.

Lemma increasing_erase name m :
  increasing (keys m) -> increasing (keys (map_erase name m)).
Proof.
  unfold keys. induction m as [|[k w] m IH]; simpl; [done|].
  intros [Hk Hm]. destruct (String.eqb_spec name k) as [->|Hne]; csimpl.
  - by apply IH.
  - split; [|by apply IH]. apply Forall_forall. intros x Hx.
    apply (keys_erase name m x) in Hx as [_ Hx].
    rewrite Forall_forall in Hk. by apply Hk.
Qed.

Lemma increasing_emplace name (v : T) m :
  increasing (keys m) -> increasing (keys (map_emplace name v m)).
Proof.
  unfold map_emplace. destruct (find name m) eqn:Hf; [done|].
  by apply increasing_insert_sorted.
Qed.

Lemma keys_emplace name (v : T) m x :
  x ∈ keys (map_emplace name v m) <-> x = name \/ x ∈ keys m.
Proof.
  unfold map_emplace. destruct (find name m) eqn:Hf.
  - split; [by right|]. intros [->|?]; [|done].
    apply find_keys. by rewrite Hf.
  - apply keys_insert_sorted.
Qed.

End map.

Lemma wf_emplace name func fw : wf fw -> wf (emplace name func fw).
Proof.
  intros (Ht & Hr & Hsub). split_and!; simpl.
  - by apply increasing_emplace.
  - by apply increasing_erase.
  - intros x [_ Hx]%keys_erase. apply keys_emplace. right. by apply Hsub.
Qed.

Lemma wf_run name fw fw' : wf fw -> run name fw = inr fw' -> wf fw'.
Proof.
  intros (Ht & Hr & Hsub). unfold run, contains.
  destruct (find name (tests fw)) as [f|] eqn:Hf; simpl; [|done].
  destruct (executed name fw); [by intros [= <-]|].
  assert (wf (record name (verdict (f tt)) fw)) as Hwf.
  { split_and!; simpl; [done| by apply increasing_emplace |].
    intros x [->|Hx]%keys_emplace; [|by apply Hsub].
    apply find_keys. by rewrite Hf. }
  by destruct (f tt); intros [= <-].
Qed.

Lemma wf_run_names names fw fw' :
  wf fw -> run_names names fw = inr fw' -> wf fw'.
Proof.
  revert fw. induction names as [|n names IH]; intros fw Hwf; simpl.
  - by intros [= <-].
  - destruct (run n fw) as [e|fw1] eqn:Hr; [done|].
    apply IH. by eapply wf_run.
Qed.

Lemma wf_perform fw o : wf fw -> wf (perform fw o).
Proof.
  intros Hwf. destruct o as [name func|name|]; simpl.
  - by apply wf_emplace.
  - destruct (run name fw) eqn:Hr; [done | by eapply wf_run].
  - destruct (run_all fw) eqn:Hr; [done | by eapply wf_run_names].
Qed.

Lemma wf_built fw : built fw -> wf fw.
Proof.
  intros [ops ->].
  assert (wf empty_framework) as H0.
  { split_and!; simpl; try done. }
  revert H0. generalize empty_framework.
  induction ops as [|o ops IH]; intros fw H0; simpl; [done|].
  apply IH. by apply wf_perform.
Qed.

(** X13.  In every framework a program can build from the empty one with
    [emplace], [run] and [run_all], both maps hold their names in strictly
    increasing order (so tests run and print in alphabetic order, and no
    name occurs twice), only registered tests have results, and no more
    tests have been executed than are registered. *)
Theorem built_invariant fw :
  built fw ->
  increasing (keys (tests fw)) /\
  increasing (keys (results fw)) /\
  NoDup (keys (tests fw)) /\
  NoDup (keys (results fw)) /\
  (forall name, executed name fw = true -> contains name fw = true) /\
  executed_size fw <= total_size fw.
Proof.
  intros Hb. destruct (wf_built _ Hb) as (Ht & Hr & Hsub).
  pose proof (increasing_NoDup _ Ht) as Hnt.
  pose proof (increasing_NoDup _ Hr) as Hnr.
  split_and!; [done..| |].
  - intros name. unfold executed, contains.
    destruct (find name (results fw)) as [r|] eqn:Hf; [|done]. intros _.
    destruct (proj2 (find_keys name (tests fw))) as [f ->]; [|done].
    apply Hsub, find_keys. by rewrite Hf.
  - unfold executed_size, total_size.
    pose proof (submseteq_length _ _ (NoDup_submseteq _ _ Hnr Hsub)) as Hl.
    unfold keys in Hl. by rewrite !length_fmap in Hl.
Qed.

(** ** Running tests *)

Lemma count_if_insert_sorted {T} (p : string * T -> bool) name (v : T) m :
  count_if p (insert_sorted name v m)
  = (if p (name, v) then 1 else 0) + count_if p m.
Proof.
  induction m as [|[k w] m IH]; simpl; [done|].
  destruct (String.compare name k); simpl; rewrite ?IH; lia.
Qed.

Lemma find_None_keys {T} name (m : list (string * T)) :
  find name m = None <-> name ∉ keys m.
Proof.
  by rewrite <- find_keys, eq_None_not_Some.
Qed.

Lemma erase_absent {T} name (m : list (string * T)) :
  find name m = None -> map_erase name m = m.
Proof.
  induction m as [|[k w] m IH]; simpl; [done|].
  destruct (String.eqb name k); [done|]. intros H. by rewrite IH.
Qed.

Lemma executed_false name fw :
  executed name fw = false -> find name (results fw) = None.
Proof. unfold executed. by destruct (find name (results fw)). Qed.

(** X14.  [run] on a registered test that has not been executed calls the
    test once and records its verdict: the queries and the counters then
    tell a test that returned from one that threw, [error_msg] is what the
    exception said (and throws for a test that passed), and running the
    name again changes nothing. *)
Theorem run_records_verdict name f fw :
  find name (tests fw) = Some f -> executed name fw = false ->
  exists fw',
    run name fw = inr fw' /\
    tests fw' = tests fw /\
    executed name fw' = true /\
    executed_size fw' = S (executed_size fw) /\
    match f tt with
    | Returns =>
        passed name fw' = inr true /\ failed name fw' = inr false /\
        error_msg name fw' = inl bad_optional_access /\
        passed_count fw' = S (passed_count fw) /\
        failed_count fw' = failed_count fw
    | ThrowsException what =>
        passed name fw' = inr false /\ failed name fw' = inr true /\
        error_msg name fw' = inr what /\
        passed_count fw' = passed_count fw /\
        failed_count fw' = S (failed_count fw)
    | ThrowsOther =>
        passed name fw' = inr false /\ failed name fw' = inr true /\
        error_msg name fw' = inr "Caught unknown exception." /\
        passed_count fw' = passed_count fw /\
        failed_count fw' = S (failed_count fw)
    end /\
    run name fw' = inr fw'.
Proof.
  intros Hf He. pose proof (executed_false _ _ He) as Hr.
  exists (record name (verdict (f tt)) fw).
  assert (find name (results (record name (verdict (f tt)) fw))
          = Some (verdict (f tt))) as Hnew.
  { simpl. by apply find_emplace_absent. }
  split_and!.
  - by apply run_fresh.
  - done.
  - unfold executed. by rewrite Hnew.
  - unfold executed_size. simpl. unfold map_emplace. rewrite Hr.
    apply length_insert_sorted.
  - unfold passed, failed, error_msg, passed_count, failed_count.
    rewrite Hnew. simpl. unfold map_emplace. rewrite Hr.
    rewrite !count_if_insert_sorted. by destruct (f tt).
  - unfold run, contains, executed. rewrite Hnew. simpl. by rewrite Hf.
Qed.

Lemma run_executed name fw :
  contains name fw = true -> executed name fw = true -> run name fw = inr fw.
Proof. intros Hc He. unfold run. by rewrite Hc, He. Qed.

Lemma run_names_executed names fw :
  (forall name, name ∈ names ->
     contains name fw = true /\ executed name fw = true) ->
  run_names names fw = inr fw.
Proof.
  induction names as [|n names IH]; intros H; simpl; [done|].
  destruct (H n) as [Hc He]; [left|]. rewrite (run_executed _ _ Hc He).
  apply IH. intros name Hin. apply H. by right.
Qed.

Lemma same_keys_length (l k : list string) :
  NoDup l -> NoDup k -> (forall x, x ∈ l <-> x ∈ k) -> length l = length k.
Proof.
  intros Hl Hk H. apply Permutation_length. by apply NoDup_Permutation.
Qed.

(** X15.  [run_all] on a framework a program can build does not throw;
    it leaves the registered tests as they are, keeps every result that
    was there, gives every other registered test the verdict of its
    callable, and afterwards every registered test is executed: the number
    of executed tests is the number of registered ones, and so is
    [passed() + failed()].  A second [run_all] changes nothing. *)
Theorem run_all_executes_every_test fw :
  built fw ->
  exists fw',
    run_all fw = inr fw' /\
    tests fw' = tests fw /\
    (forall name r, find name (results fw) = Some r ->
       find name (results fw') = Some r) /\
    (forall name f, find name (tests fw) = Some f ->
       find name (results fw) = None ->
       find name (results fw') = Some (verdict (f tt))) /\
    (forall name, executed name fw' = contains name fw') /\
    executed_size fw' = total_size fw /\
    passed_count fw' + failed_count fw' = total_size fw /\
    run_all fw' = inr fw'.
Proof.
  intros Hb. pose proof (wf_built _ Hb) as Hwf.
  destruct (run_names_spec (fst <$> tests fw) fw)
    as (fw' & Hrun & Ht & Hkeep & Hnew & Hout).
  { intros name. apply elem_fst_find. }
  pose proof (wf_run_names _ _ _ Hwf Hrun) as (Hit' & Hir' & Hsub').
  assert (forall name, name ∈ keys (tests fw') -> name ∈ keys (results fw'))
    as Hall.
  { intros name Hin. rewrite Ht in Hin. pose proof Hin as Hin'.
    apply find_keys in Hin as [f Hf]. apply find_keys.
    destruct (find name (results fw)) as [r|] eqn:Hr.
    - rewrite (Hkeep _ _ Hr). by eexists.
    - rewrite (Hnew _ _ Hin' Hf Hr). by eexists. }
  assert (forall name, executed name fw' = contains name fw') as Heq.
  { intros name. unfold executed, contains.
    destruct (find name (results fw')) as [r|] eqn:Hr.
    - destruct (proj2 (find_keys name (tests fw'))) as [f ->]; [|done].
      apply Hsub', find_keys. by rewrite Hr.
    - destruct (find name (tests fw')) as [f|] eqn:Hf; [|done].
      assert (name ∈ keys (results fw')) as Hin.
      { apply Hall, find_keys. by rewrite Hf. }
      apply find_keys in Hin as [r Hr']. congruence. }
  assert (executed_size fw' = total_size fw) as Hsize.
  { unfold executed_size, total_size. rewrite <- Ht.
    rewrite <- (length_fmap fst (results fw')), <- (length_fmap fst (tests fw')).
    apply same_keys_length; [by apply increasing_NoDup..|].
    intros x. split; [apply Hsub' | apply Hall]. }
  exists fw'. split_and!; try done.
  - intros name f Hf Hr. apply Hnew; [|done..].
    apply find_keys. by rewrite Hf.
  - rewrite <- Hsize.
    apply (count_if_split (fun res => has_value (snd res)) (results fw')).
  - apply run_names_executed. intros name Hin.
    assert (contains name fw' = true) as Hc.
    { unfold contains. by apply find_keys in Hin as [f ->]. }
    split; [done|]. by rewrite Heq.
Qed.

(** X16.  [emplace] of a name that is not registered, on a framework a
    program can build: the test is registered under the name with the
    given callable, one more test is registered, the other tests and all
    results are as before, and the new test counts as not executed. *)
Theorem emplace_new_test name func fw :
  built fw -> contains name fw = false ->
  find name (tests (emplace name func fw)) = Some func /\
  (forall other, other <> name ->
     find other (tests (emplace name func fw)) = find other (tests fw)) /\
  total_size (emplace name func fw) = S (total_size fw) /\
  results (emplace name func fw) = results fw /\
  executed name (emplace name func fw) = false /\
  built (emplace name func fw).
Proof.
  intros Hb Hc. destruct (wf_built _ Hb) as (_ & _ & Hsub).
  assert (find name (tests fw) = None) as Hf.
  { unfold contains in Hc. by destruct (find name (tests fw)). }
  assert (find name (results fw) = None) as Hr.
  { apply find_None_keys. intros Hin. by apply Hsub, find_None_keys in Hin. }
  split_and!; simpl.
  - by apply find_emplace_absent.
  - intros other Hne. by apply find_emplace_ne.
  - unfold total_size. simpl. unfold map_emplace. rewrite Hf.
    apply length_insert_sorted.
  - by apply erase_absent.
  - unfold executed. simpl. by rewrite find_erase_eq.
  - destruct Hb as [ops ->]. exists (ops ++ [Emplace name func]).
    by rewrite foldl_app.
Qed.

(** ** Printing *)

Lemma string_app_assoc (s1 s2 s3 : string) :
  (s1 +:+ s2) +:+ s3 = s1 +:+ (s2 +:+ s3).
Proof.
  induction s1 as [|a s1 IH]; [done|].
  change (String a ((s1 +:+ s2) +:+ s3) = String a (s1 +:+ s2 +:+ s3)).
  by f_equal.
Qed.

Lemma string_app_empty_r (s : string) : s +:+ "" = s.
Proof.
  induction s as [|a s IH]; [done|].
  change (String a (s +:+ "") = String a s). by f_equal.
Qed.

Lemma result_registered name fw os :
  is_Some (find name (tests fw)) ->
  result name fw os = (os +:+ line fw name, None).
Proof.
  intros [f Hf]. unfold result, line, contains, executed, passed, error_msg.
  rewrite Hf. simpl.
  destruct (find name (results fw)) as [[msg|]|]; simpl;
    by rewrite ?string_app_assoc.
Qed.

Lemma print_names_registered names fw os :
  (forall name, name ∈ names -> is_Some (find name (tests fw))) ->
  print_names names fw os = (os +:+ concat_lines (line fw <$> names), None).
Proof.
  revert os. induction names as [|n names IH]; intros os H; simpl.
  - by rewrite string_app_empty_r.
  - rewrite result_registered by (apply H; left).
    rewrite IH by (intros name Hin; apply H; by right).
    by rewrite string_app_assoc.
Qed.

(** X17.  Printing a framework never throws: [operator<<] appends to the
    stream one entry for every registered test, in the order of the map,
    saying that the test has not been executed, passed, or failed with its
    error message; neither [passed] nor [error_msg] can throw inside
    [result] there.  [result] for a name that is not registered throws
    [out_of_range] before anything is written. *)
Theorem print_every_test fw os :
  print fw os = (os +:+ concat_lines (line fw <$> keys (tests fw)), None) /\
  (forall name, name ∈ keys (tests fw) ->
     result name fw os = (os +:+ line fw name, None)) /\
  (forall name, name ∉ keys (tests fw) ->
     result name fw os
     = (os, Some (out_of_range "Provided name is not registered."))).
Proof.
  split_and!.
  - apply print_names_registered. intros name. apply elem_fst_find.
  - intros name Hin. apply result_registered. by apply elem_fst_find.
  - intros name Hnin. apply find_None_keys in Hnin.
    unfold result, contains. by rewrite Hnin.
Qed.

(** ** Assertions *)

Lemma c_str_no_nul msg : no_nul msg = true -> c_str msg = msg.
Proof.
  induction msg as [|a msg IH]; simpl; [done|].
  destruct (Ascii.eqb a Ascii.zero); simpl; [done|].
  intros Hn. by rewrite IH.
Qed.

Lemma sequence_returns (stmts : list test) :
  Forall (fun st : test => st tt = Returns) stmts ->
  sequence stmts tt = Returns.
Proof.
  induction 1 as [|st stmts Hst _ IH]; simpl; [done|]. by rewrite Hst.
Qed.

Lemma sequence_throws (before : list test) (st : test) (after : list test) :
  Forall (fun st : test => st tt = Returns) before ->
  st tt <> Returns ->
  sequence (before ++ st :: after) tt = st tt.
Proof.
  induction 1 as [|st0 stmts Hst _ IH]; intros Hthrow; simpl.
  - by destruct (st tt).
  - rewrite Hst. by apply IH.
Qed.

(** Each assertion is [assert_true] of what its operator says. *)
Lemma assertions_unfold {Obj1 Obj2} `{Operators Obj1 Obj2}
    (p : bool) (X : Obj1) (Y : Obj2) msg :
  assert_false p msg = assert_true (negb p) msg /\
  assert_eq X Y msg = assert_true (op_eq X Y) msg /\
  assert_neq X Y msg = assert_true (op_neq X Y) msg /\
  assert_less X Y msg = assert_true (op_less X Y) msg /\
  assert_leq X Y msg = assert_true (op_leq X Y) msg /\
  assert_greater X Y msg = assert_true (op_greater X Y) msg /\
  assert_geq X Y msg = assert_true (op_geq X Y) msg.
Proof. split_and!; try done. by destruct p. Qed.

(** X18.  A failed assertion is reported: when a registered test runs
    statements that return and then an assertion of framework.h whose
    condition does not hold, [run] catches the [test_error], the test
    counts as failed, and [error_msg] is the message handed to the
    assertion, up to its first NUL character (all of it when it has none);
    the statements after the assertion play no role.  When the condition
    holds and the statements after it return as well, the test passes. *)
Theorem failed_assertion_reported name fw (before after : list test)
    (st : test) (cond : bool) (msg : string) :
  find name (tests fw) = Some (sequence (before ++ st :: after)) ->
  st tt = assert_true cond msg ->
  executed name fw = false ->
  Forall (fun st : test => st tt = Returns) before ->
  exists fw',
    run name fw = inr fw' /\
    if cond
    then (Forall (fun st : test => st tt = Returns) after ->
          passed name fw' = inr true)
    else failed name fw' = inr true /\
         error_msg name fw' = inr (c_str msg) /\
         (no_nul msg = true -> error_msg name fw' = inr msg) /\
         line fw' name
         = "Test " +:+ name +:+ " failed." +:+ nl +:+ tab +:+ "Error: "
           +:+ c_str msg +:+ nl.
Proof.
  intros Hf Hst He Hb. pose proof (executed_false _ _ He) as Hr.
  eexists. split; [by apply run_fresh|].
  assert (forall v,
            find name (results (record name v fw)) = Some v) as Hnew.
  { intros v. simpl. by apply find_emplace_absent. }
  destruct cond.
  - intros Ha. rewrite sequence_returns.
    + unfold passed. by rewrite Hnew.
    + apply Forall_app. split; [done|]. by constructor.
  - rewrite sequence_throws by (by rewrite ?Hst). rewrite Hst. simpl.
    unfold failed, error_msg, line. rewrite Hnew. split_and!; try done.
    intros Hn. by rewrite c_str_no_nul.
Qed.

(** ** The properties on the harness of test.cpp *)

Lemma built_invariant_witness :
  NoDup (keys (tests after_run)) /\
  executed_size after_run <= total_size after_run.
Proof.
  assert (built after_run) as built_after_run.
  { exists [Emplace "apply" passing; Emplace "apply_get" passing;
            Emplace "map" failing; Emplace "map_get" passing; RunAll].
    reflexivity. }
  destruct (built_invariant after_run built_after_run)
    as (_ & _ & Hn & _ & _ & Hle).
  exact (conj Hn Hle).
Defined.

Lemma run_records_verdict_witness :
  exists fw',
    run "map" registered = inr fw' /\
    error_msg "map" fw' = inr "Default assert_leq message." /\
    failed_count fw' = S (failed_count registered).
Proof.
  destruct (run_records_verdict "map" failing registered eq_refl eq_refl)
    as (fw' & Hrun & _ & _ & _ & Hv & _).
  simpl in Hv. destruct Hv as (_ & _ & Hmsg & _ & Hcount).
  exists fw'. exact (conj Hrun (conj Hmsg Hcount)).
Defined.

Lemma run_all_executes_every_test_witness :
  exists fw',
    run_all registered = inr fw' /\
    executed_size fw' = total_size registered /\
    run_all fw' = inr fw'.
Proof.
  assert (built registered) as built_registered.
  { exists [Emplace "apply" passing; Emplace "apply_get" passing;
            Emplace "map" failing; Emplace "map_get" passing].
    reflexivity. }
  destruct (run_all_executes_every_test registered built_registered)
    as (fw' & Hrun & _ & _ & _ & _ & Hsize & _ & Hagain).
  exists fw'. exact (conj Hrun (conj Hsize Hagain)).
Defined.

Lemma emplace_new_test_witness :
  find "size" (tests (emplace "size" passing after_run)) = Some passing /\
  results (emplace "size" passing after_run) = results after_run.
Proof.
  assert (built after_run) as built_after_run.
  { exists [Emplace "apply" passing; Emplace "apply_get" passing;
            Emplace "map" failing; Emplace "map_get" passing; RunAll].
    reflexivity. }
  destruct (emplace_new_test "size" passing after_run built_after_run eq_refl)
    as (Hf & _ & _ & Hr & _).
  exact (conj Hf Hr).
Defined.

Lemma failed_assertion_reported_witness :
  exists fw',
    run "apply" (emplace "apply" (elapsed_checks 45) empty_framework)
    = inr fw' /\
    failed "apply" fw' = inr true /\
    error_msg "apply" fw' = inr "Default assert_leq message.".
Proof.
  assert (Forall (fun st : test => st tt = Returns)
            [fun _ => assert_leq (unsigned (30 - epsilon)) 45%Z
                        "Default assert_leq message."]) as Hb.
  { constructor; [reflexivity | constructor]. }
  destruct (failed_assertion_reported "apply"
              (emplace "apply" (elapsed_checks 45) empty_framework)
              [fun _ => assert_leq (unsigned (30 - epsilon)) 45%Z
                          "Default assert_leq message."]
              []
              (fun _ => assert_leq 45%Z (unsigned (30 + epsilon))
                          "Default assert_leq message.")
              false "Default assert_leq message."
              eq_refl eq_refl eq_refl Hb)
    as (fw' & Hrun & Hfailed & _ & Hmsg & _).
  exists fw'. exact (conj Hrun (conj Hfailed (Hmsg eq_refl))).
Defined.

End FrameworkExtra.
